(** * Tic-tac-toe decision engine (src/src/ai.ts, src/src/game.ts)

    A shallow embedding of [AIEngine] (win detection, empty cells,
    [findWinningMove], [minimax] with alpha-beta pruning, the three move
    strategies) and of [checkResult] from the game controller.

    The board is a JavaScript array of [BoardCell]; it is modelled as a
    list.  [board[i]] is [nth_error]: [None] is JavaScript's [undefined]
    outside the array.  [minimax] and [hardMove] write to the board in
    place and undo the writes; they are modelled by explicit state passing,
    returning the final board together with the result. *)

From Stdlib Require Import List ZArith Lia Bool Arith Sorting.Sorted.
Import ListNotations.
Open Scope Z_scope.

(** ** Data *)

(** [type Player = 'X' | 'O'] *)
Inductive Player := PX | PO.

(** [type BoardCell = '' | 'X' | 'O'] *)
Inductive BoardCell := Empty | CX | CO.

Definition Board := list BoardCell.

(** [type Difficulty = 'easy' | 'medium' | 'hard'] *)
Inductive Difficulty := Easy | Medium | Hard.

(** [type GameResult = WinResult | DrawResult | null] *)
Inductive GameResult :=
| RWin (winner : Player) (pattern : list nat)
| RDraw
| RNone.

Definition cell_of (p : Player) : BoardCell :=
  match p with PX => CX | PO => CO end.

Definition player_eqb (p q : Player) : bool :=
  match p, q with PX, PX | PO, PO => true | _, _ => false end.

Definition cell_eqb (c d : BoardCell) : bool :=
  match c, d with
  | Empty, Empty | CX, CX | CO, CO => true
  | _, _ => false
  end.

(** [===] on array reads, which may be [undefined]. *)
Definition ocell_eqb (c d : option BoardCell) : bool :=
  match c, d with
  | Some c, Some d => cell_eqb c d
  | None, None => true
  | _, _ => false
  end.

(** [winner === ai] where [winner : Player | null]. *)
Definition oplayer_eqb (w : option Player) (p : Player) : bool :=
  match w with Some q => player_eqb q p | None => false end.

(** [board[i]] *)
Definition lookup (board : Board) (i : nat) : option BoardCell := nth_error board i.

(** [board[i] = v] for an index inside the array (the only writes the
    engine and the game perform are at cells read as [''] just before). *)
Fixpoint set_cell (board : Board) (i : nat) (v : BoardCell) : Board :=
  match board, i with
  | [], _ => []
  | _ :: rest, O => v :: rest
  | c :: rest, S j => c :: set_cell rest j v
  end.

(** JavaScript truthiness of a cell read: [''] and [undefined] are falsy. *)
Definition truthy (v : option BoardCell) : bool :=
  match v with Some CX | Some CO => true | _ => false end.

(** The cast [board[a] as Player]. *)
Definition as_player (v : option BoardCell) : option Player :=
  match v with Some CX => Some PX | Some CO => Some PO | _ => None end.

(** ** Board analysis *)

(** [AIEngine.WIN_PATTERNS] *)
Definition WIN_PATTERNS : list (list nat) :=
  [[0;1;2]; [3;4;5]; [6;7;8];
   [0;3;6]; [1;4;7]; [2;5;8];
   [0;4;8]; [2;4;6]]%nat.

(** The test [board[a] && board[a] === board[b] && board[a] === board[c]]
    for one pattern [[a, b, c]], returning [board[a] as Player]. *)
Definition line_winner (board : Board) (pattern : list nat) : option Player :=
  match pattern with
  | [a; b; c] =>
      if truthy (lookup board a)
         && ocell_eqb (lookup board a) (lookup board b)
         && ocell_eqb (lookup board a) (lookup board c)
      then as_player (lookup board a)
      else None
  | _ => None
  end.

(** The first [Some] produced along a [for ... of] loop with early return. *)
Fixpoint first_some {A B : Type} (f : A -> option B) (l : list A) : option B :=
  match l with
  | [] => None
  | x :: xs => match f x with Some y => Some y | None => first_some f xs end
  end.

(** [AIEngine.getWinner] *)
Definition getWinner (board : Board) : option Player :=
  first_some (line_winner board) WIN_PATTERNS.

Definition is_empty (c : BoardCell) : bool := cell_eqb c Empty.

(** [board.includes('')] *)
Definition includes_empty (board : Board) : bool := existsb is_empty board.

Fixpoint empties_from (i : nat) (board : Board) : list nat :=
  match board with
  | [] => []
  | c :: rest =>
      if is_empty c then i :: empties_from (S i) rest else empties_from (S i) rest
  end.

(** [AIEngine.getEmptyCells]: the reduce pushes [idx] when [val === '']. *)
Definition getEmptyCells (board : Board) : list nat := empties_from 0 board.

(** [values.indexOf('')]; [None] stands for [-1]. *)
Fixpoint indexOf_empty (values : list (option BoardCell)) : option nat :=
  match values with
  | [] => None
  | v :: vs =>
      if ocell_eqb v (Some Empty) then Some 0%nat
      else option_map S (indexOf_empty vs)
  end.

(** [AIEngine.findWinningMove] *)
Definition findWinningMove (board : Board) (pattern : list nat) (mark : Player)
  : option nat :=
  let values := map (lookup board) pattern in
  let markCount := length (filter (fun v => ocell_eqb v (Some (cell_of mark))) values) in
  let emptyCount := length (filter (fun v => ocell_eqb v (Some Empty)) values) in
  if Nat.eqb markCount 2 && Nat.eqb emptyCount 1 then
    match indexOf_empty values with
    | Some k => nth_error pattern k
    | None => None   (* pattern[-1] is undefined *)
    end
  else None.

(** [GameController.checkResult], as a function of [this.state.board]. *)
Definition checkResult (board : Board) : GameResult :=
  match first_some (fun p => option_map (fun w => (w, p)) (line_winner board p))
                   WIN_PATTERNS with
  | Some (w, p) => RWin w p
  | None => if negb (includes_empty board) then RDraw else RNone
  end.

(** ** Scores: JavaScript numbers that are integers or [+-Infinity] *)

Inductive num := NegInf | Fin (z : Z) | PosInf.

(** [x <= y] *)
Definition num_leb (x y : num) : bool :=
  match x, y with
  | NegInf, _ => true
  | _, PosInf => true
  | Fin a, Fin b => Z.leb a b
  | _, _ => false
  end.

(** [x > y] *)
Definition num_gtb (x y : num) : bool := negb (num_leb x y).

(** [Math.max(x, y)] and [Math.min(x, y)] *)
Definition num_max (x y : num) : num := if num_leb x y then y else x.
Definition num_min (x y : num) : num := if num_leb x y then x else y.

(** [-x] *)
Definition num_neg (x : num) : num :=
  match x with NegInf => PosInf | Fin z => Fin (- z) | PosInf => NegInf end.

(** ** Search: [AIEngine.minimax] *)

(** The candidate loop of the maximizing ply:
    [for (let i = 0; i < 9; i++) if (board[i] === '') { ... }].
    [child board alpha beta] is the recursive call
    [minimax(board, depth + 1, false, alpha, beta, ai, human)], returning the
    score and the board as the callee leaves it. *)
Fixpoint maxLoop (child : Board -> num -> num -> num * Board) (mark : BoardCell)
    (beta : num) (idxs : list nat) (board : Board) (best alpha : num)
  : num * Board :=
  match idxs with
  | [] => (best, board)
  | i :: rest =>
      if ocell_eqb (lookup board i) (Some Empty) then
        let board1 := set_cell board i mark in
        let '(score, board2) := child board1 alpha beta in
        let board3 := set_cell board2 i Empty in
        let best' := num_max best score in
        let alpha' := num_max alpha score in
        if num_leb beta alpha' then (best', board3)
        else maxLoop child mark beta rest board3 best' alpha'
      else maxLoop child mark beta rest board best alpha
  end.

(** The candidate loop of the minimizing ply. *)
Fixpoint minLoop (child : Board -> num -> num -> num * Board) (mark : BoardCell)
    (alpha : num) (idxs : list nat) (board : Board) (best beta : num)
  : num * Board :=
  match idxs with
  | [] => (best, board)
  | i :: rest =>
      if ocell_eqb (lookup board i) (Some Empty) then
        let board1 := set_cell board i mark in
        let '(score, board2) := child board1 alpha beta in
        let board3 := set_cell board2 i Empty in
        let best' := num_min best score in
        let beta' := num_min beta score in
        if num_leb beta' alpha then (best', board3)
        else minLoop child mark alpha rest board3 best' beta'
      else minLoop child mark alpha rest board best beta
  end.

Definition cells9 : list nat := seq 0 9.

(** [minimax] with a recursion budget [fuel].  Every recursive call fills
    one of the cells 0..8, so a budget of 10 is never exhausted
    (lemma [minimax_go_range] below). *)
Fixpoint minimax_go (fuel : nat) (board : Board) (depth : Z) (isMaximizing : bool)
    (alpha beta : num) (ai human : Player) {struct fuel} : num * Board :=
  let winner := getWinner board in
  if oplayer_eqb winner ai then (Fin (10 - depth), board)
  else if oplayer_eqb winner human then (Fin (depth - 10), board)
  else if negb (includes_empty board) then (Fin 0, board)
  else match fuel with
  | O => (Fin 0, board)
  | S fuel' =>
      if isMaximizing then
        maxLoop (fun b a bt => minimax_go fuel' b (depth + 1) false a bt ai human)
          (cell_of ai) beta cells9 board NegInf alpha
      else
        minLoop (fun b a bt => minimax_go fuel' b (depth + 1) true a bt ai human)
          (cell_of human) alpha cells9 board PosInf beta
  end.

Definition minimax (board : Board) (depth : Z) (isMaximizing : bool)
    (alpha beta : num) (ai human : Player) : num * Board :=
  minimax_go 10 board depth isMaximizing alpha beta ai human.

(** The same search without the cutoff [if (beta <= alpha) break;]: the
    reference the pruned search is compared with (claim C2).  Everything
    else, including the updates of [alpha] and [beta] passed down, is kept. *)
Fixpoint maxLoopNoPrune (child : Board -> num -> num -> num * Board) (mark : BoardCell)
    (beta : num) (idxs : list nat) (board : Board) (best alpha : num)
  : num * Board :=
  match idxs with
  | [] => (best, board)
  | i :: rest =>
      if ocell_eqb (lookup board i) (Some Empty) then
        let board1 := set_cell board i mark in
        let '(score, board2) := child board1 alpha beta in
        let board3 := set_cell board2 i Empty in
        maxLoopNoPrune child mark beta rest board3 (num_max best score) (num_max alpha score)
      else maxLoopNoPrune child mark beta rest board best alpha
  end.

Fixpoint minLoopNoPrune (child : Board -> num -> num -> num * Board) (mark : BoardCell)
    (alpha : num) (idxs : list nat) (board : Board) (best beta : num)
  : num * Board :=
  match idxs with
  | [] => (best, board)
  | i :: rest =>
      if ocell_eqb (lookup board i) (Some Empty) then
        let board1 := set_cell board i mark in
        let '(score, board2) := child board1 alpha beta in
        let board3 := set_cell board2 i Empty in
        minLoopNoPrune child mark alpha rest board3 (num_min best score) (num_min beta score)
      else minLoopNoPrune child mark alpha rest board best beta
  end.

Fixpoint minimax_noprune_go (fuel : nat) (board : Board) (depth : Z) (isMaximizing : bool)
    (alpha beta : num) (ai human : Player) {struct fuel} : num * Board :=
  let winner := getWinner board in
  if oplayer_eqb winner ai then (Fin (10 - depth), board)
  else if oplayer_eqb winner human then (Fin (depth - 10), board)
  else if negb (includes_empty board) then (Fin 0, board)
  else match fuel with
  | O => (Fin 0, board)
  | S fuel' =>
      if isMaximizing then
        maxLoopNoPrune (fun b a bt => minimax_noprune_go fuel' b (depth + 1) false a bt ai human)
          (cell_of ai) beta cells9 board NegInf alpha
      else
        minLoopNoPrune (fun b a bt => minimax_noprune_go fuel' b (depth + 1) true a bt ai human)
          (cell_of human) alpha cells9 board PosInf beta
  end.

Definition minimax_noprune (board : Board) (depth : Z) (isMaximizing : bool)
    (alpha beta : num) (ai human : Player) : num * Board :=
  minimax_noprune_go 10 board depth isMaximizing alpha beta ai human.

(** ** Strategies *)

(** [Math.floor(Math.random() * n)] is an oracle [rnd]; a well-behaved one
    satisfies [rnd n < n] for [n > 0]. *)
Definition easyMove (rnd : nat -> nat) (board : Board) : option nat :=
  let empty := getEmptyCells board in
  nth_error empty (rnd (length empty)).

Definition mediumMove (rnd : nat -> nat) (board : Board) (ai human : Player)
  : option nat :=
  match first_some (fun p => findWinningMove board p ai) WIN_PATTERNS with
  | Some move => Some move
  | None =>
      match first_some (fun p => findWinningMove board p human) WIN_PATTERNS with
      | Some move => Some move
      | None => easyMove rnd board
      end
  end.

(** The loop of [hardMove] over the precomputed list of empty cells. *)
Fixpoint hardLoop (ai human : Player) (empty : list nat) (board : Board)
    (bestScore : num) (bestMove : option nat) : option nat * Board :=
  match empty with
  | [] => (bestMove, board)
  | idx :: rest =>
      let board1 := set_cell board idx (cell_of ai) in
      let '(score, board2) := minimax board1 0 false NegInf PosInf ai human in
      let board3 := set_cell board2 idx Empty in
      if num_gtb score bestScore then hardLoop ai human rest board3 score (Some idx)
      else hardLoop ai human rest board3 bestScore bestMove
  end.

Definition hardMove (board : Board) (ai human : Player) : option nat * Board :=
  hardLoop ai human (getEmptyCells board) board NegInf None.

(** [AIEngine.chooseMove]; the easy and medium strategies do not write to
    the board. *)
Definition chooseMove (rnd : nat -> nat) (board : Board) (difficulty : Difficulty)
    (aiMark playerMark : Player) : option nat * Board :=
  match difficulty with
  | Easy => (easyMove rnd board, board)
  | Medium => (mediumMove rnd board aiMark playerMark, board)
  | Hard => hardMove board aiMark playerMark
  end.

Definition emptyBoard : Board := repeat Empty 9.

(** ** The game against the hard strategy *)

(** [has_line board m]: some pattern has [m] in all three of its cells. *)
Definition has_line (board : Board) (m : Player) : bool :=
  existsb (fun p => forallb (fun i => ocell_eqb (lookup board i) (Some (cell_of m))) p)
          WIN_PATTERNS.

(** States of a player-versus-AI round at hard difficulty.  The boolean is
    [true] when the AI is to move.  A round starts on the empty board with
    either side first; a move is played only while [checkResult] reports the
    game in progress.  The AI's move is the index [chooseMove] returns on
    [this.state.board], placed on the board as [chooseMove] left it; the
    human may click any empty cell. *)
Inductive reachable (rnd : nat -> nat) (ai human : Player) : Board -> bool -> Prop :=
| reach_start : forall aiFirst, reachable rnd ai human emptyBoard aiFirst
| reach_ai : forall board i board',
    reachable rnd ai human board true ->
    checkResult board = RNone ->
    chooseMove rnd board Hard ai human = (Some i, board') ->
    reachable rnd ai human (set_cell board' i (cell_of ai)) false
| reach_human : forall board j,
    reachable rnd ai human board false ->
    checkResult board = RNone ->
    lookup board j = Some Empty ->
    reachable rnd ai human (set_cell board j (cell_of human)) true.

(** Exhaustive exploration of every continuation: [false] as soon as a
    state where the human has a line is met (or the budget runs out). *)
Fixpoint safe_go (fuel : nat) (ai human : Player) (board : Board) (aiTurn : bool)
  : bool :=
  if has_line board human then false else
  match checkResult board with
  | RNone =>
      match fuel with
      | O => false
      | S f =>
          if aiTurn then
            match hardMove board ai human with
            | (Some i, board') => safe_go f ai human (set_cell board' i (cell_of ai)) false
            | (None, _) => false
            end
          else
            forallb (fun j => match lookup board j with
                              | Some Empty => safe_go f ai human (set_cell board j (cell_of human)) true
                              | _ => true
                              end) cells9
      end
  | _ => true
  end.

(** Sample boards used by the examples and checks below. *)
Definition bX := [CX;CX;CX;CO;CO;Empty;Empty;Empty;Empty].
Definition bDraw := [CX;CO;CX;CX;CO;CO;CO;CX;CX].

(** ** Auxiliary definitions for the statements *)


(** [line_complete b p w]: the three cells of [p] hold the mark [w]. *)
Definition line_complete (b : Board) (p : list nat) (w : Player) : Prop :=
  exists x y z, p = [x; y; z] /\
    lookup b x = Some (cell_of w) /\ lookup b y = Some (cell_of w) /\ lookup b z = Some (cell_of w).

(** A board where X can win on row 0 and O could win on row 1. *)
Definition bMed : Board := [CX;CX;Empty;CO;CO;Empty;Empty;Empty;Empty].

(** A board where only X threatens a line (row 0). *)
Definition bBlock : Board := [CX;CX;Empty;CO;Empty;Empty;Empty;Empty;Empty].

(** [x <= y] and [x < y] on scores, as propositions. *)
Definition nle (x y : num) : Prop := num_leb x y = true.
Definition nlt (x y : num) : Prop := num_gtb y x = true.

(** The number of empty cells of the board. *)
Definition count_empty (b : Board) : nat := length (filter is_empty b).

(** A score [minimax] can return on a board: a finite integer in [-10, 10]. *)
Definition in_range (v : num) : Prop := exists z, v = Fin z /\ -10 <= z <= 10.

(** Fail-soft alpha-beta: what a search with window [alpha, beta] may
    return, [v], in terms of the exact value [t]. *)
Definition fail_soft (v t alpha beta : num) : Prop :=
  (nle v alpha -> nle t v) /\ (nle beta v -> nle v t) /\
  (nlt alpha v -> nlt v beta -> v = t).

(** The score [hardMove] computes for the empty cell [j] of [b]. *)
Definition probe (ai human : Player) (b : Board) (j : nat) : num :=
  fst (minimax (set_cell b j (cell_of ai)) 0 false NegInf PosInf ai human).

(** ** The game controller ([Game] in src/src/game.ts)

    The standalone script at the end of game.ts repeats the same round
    logic on a global [state]: its [handleCellAction], [placeMark],
    [switchPlayer], [checkResult] and [scheduleAITurn] are the class's
    methods, its [makeAIMove] is [chooseMove] (easy in the [default]
    branch), and its [getWinner], [getEmptyCells], [findWinningMove],
    [minimax], [aiEasy], [aiMedium] and [aiHard] are [AIEngine]'s, applied
    to [state.board].  The definitions below model both. *)

(** [type GameMode = 'pvp' | 'pvai'] *)
Inductive GameMode := PvP | PvAI.

(** [scores: { p1, draws, p2 }]: counters that start at 0 and are only
    incremented. *)
Module Score.
Record Scores := mkScores { p1 : nat; draws : nat; p2 : nat }.
End Score.

(** The fields of [GameState] that the round logic reads or writes (the
    screen, mute and transition fields only drive the UI, and the overlay
    timer only shows the overlay).  [aiTimeoutSet] is
    [aiTimeoutId !== null]. *)
Record GameState := mkState {
  mode : option GameMode;
  difficulty : option Difficulty;
  playerMark : Player;
  aiMark : option Player;
  currentPlayer : Player;
  board : Board;
  gameActive : bool;
  scores : Score.Scores;
  aiThinking : bool;
  aiTimeoutSet : bool;
  inputLocked : bool }.

(** Assignments [this.state.f = v]. *)
Definition with_mode v s := mkState v (difficulty s) (playerMark s) (aiMark s) (currentPlayer s) (board s) (gameActive s) (scores s) (aiThinking s) (aiTimeoutSet s) (inputLocked s).
Definition with_difficulty v s := mkState (mode s) v (playerMark s) (aiMark s) (currentPlayer s) (board s) (gameActive s) (scores s) (aiThinking s) (aiTimeoutSet s) (inputLocked s).
Definition with_playerMark v s := mkState (mode s) (difficulty s) v (aiMark s) (currentPlayer s) (board s) (gameActive s) (scores s) (aiThinking s) (aiTimeoutSet s) (inputLocked s).
Definition with_aiMark v s := mkState (mode s) (difficulty s) (playerMark s) v (currentPlayer s) (board s) (gameActive s) (scores s) (aiThinking s) (aiTimeoutSet s) (inputLocked s).
Definition with_currentPlayer v s := mkState (mode s) (difficulty s) (playerMark s) (aiMark s) v (board s) (gameActive s) (scores s) (aiThinking s) (aiTimeoutSet s) (inputLocked s).
Definition with_board v s := mkState (mode s) (difficulty s) (playerMark s) (aiMark s) (currentPlayer s) v (gameActive s) (scores s) (aiThinking s) (aiTimeoutSet s) (inputLocked s).
Definition with_gameActive v s := mkState (mode s) (difficulty s) (playerMark s) (aiMark s) (currentPlayer s) (board s) v (scores s) (aiThinking s) (aiTimeoutSet s) (inputLocked s).
Definition with_scores v s := mkState (mode s) (difficulty s) (playerMark s) (aiMark s) (currentPlayer s) (board s) (gameActive s) v (aiThinking s) (aiTimeoutSet s) (inputLocked s).
Definition with_aiThinking v s := mkState (mode s) (difficulty s) (playerMark s) (aiMark s) (currentPlayer s) (board s) (gameActive s) (scores s) v (aiTimeoutSet s) (inputLocked s).
Definition with_aiTimeoutSet v s := mkState (mode s) (difficulty s) (playerMark s) (aiMark s) (currentPlayer s) (board s) (gameActive s) (scores s) (aiThinking s) v (inputLocked s).
Definition with_inputLocked v s := mkState (mode s) (difficulty s) (playerMark s) (aiMark s) (currentPlayer s) (board s) (gameActive s) (scores s) (aiThinking s) (aiTimeoutSet s) v.

(** [this.state.mode === 'pvai'] *)
Definition is_pvai (s : GameState) : bool :=
  match mode s with Some PvAI => true | _ => false end.

(** [side === 'X' ? 'O' : 'X'] *)
Definition opposite (p : Player) : Player := if player_eqb p PX then PO else PX.

(** [placeMark(idx)]: [this.state.board[idx] = this.state.currentPlayer]
    (the index is always one whose cell was just read as ['']). *)
Definition placeMark (idx : nat) (s : GameState) : GameState :=
  with_board (set_cell (board s) idx (cell_of (currentPlayer s))) s.

(** [switchPlayer()] *)
Definition switchPlayer (s : GameState) : GameState :=
  with_currentPlayer (opposite (currentPlayer s)) s.

(** [clearPendingTimers()] *)
Definition clearPendingTimers (s : GameState) : GameState :=
  with_aiThinking false (with_aiTimeoutSet false s).

(** [scheduleAITurn()] up to the [setTimeout]: the callback is
    [aiTimerFires] below. *)
Definition scheduleAITurn (s : GameState) : GameState :=
  with_aiTimeoutSet true (with_aiThinking true s).

(** [updateWinStatus(winner)] *)
Definition updateWinStatus (winner : Player) (s : GameState) : GameState :=
  let sc := scores s in
  if is_pvai s then
    if player_eqb winner (playerMark s) then with_scores (Score.mkScores (S (Score.p1 sc)) (Score.draws sc) (Score.p2 sc)) s
    else with_scores (Score.mkScores (Score.p1 sc) (Score.draws sc) (S (Score.p2 sc))) s
  else
    if player_eqb winner PX then with_scores (Score.mkScores (S (Score.p1 sc)) (Score.draws sc) (Score.p2 sc)) s
    else with_scores (Score.mkScores (Score.p1 sc) (Score.draws sc) (S (Score.p2 sc))) s.

(** [endGameWithDraw(result)] *)
Definition endGameWithDraw (s : GameState) : GameState :=
  let sc := scores s in with_scores (Score.mkScores (Score.p1 sc) (S (Score.draws sc)) (Score.p2 sc)) s.

(** [endGame(result)]; it is only called with a win or a draw, and
    dispatches on [result.type === 'win']. *)
Definition endGame (result : GameResult) (s : GameState) : GameState :=
  let s1 := with_inputLocked true (with_gameActive false s) in
  match result with
  | RWin w _ => updateWinStatus w s1
  | _ => endGameWithDraw s1
  end.

(** [handleCellAction(cellIndex)] *)
Definition handleCellAction (cellIndex : nat) (s : GameState) : GameState :=
  if negb (gameActive s) || negb (ocell_eqb (lookup (board s) cellIndex) (Some Empty))
     || aiThinking s || inputLocked s then s
  else if is_pvai s && negb (player_eqb (currentPlayer s) (playerMark s)) then s
  else
    let s1 := placeMark cellIndex (with_inputLocked true s) in
    match checkResult (board s1) with
    | RNone =>
        let s2 := with_inputLocked false (switchPlayer s1) in
        if is_pvai s2 && gameActive s2 then scheduleAITurn s2 else s2
    | result => endGame result s1
    end.

(** [AIEngine.chooseMove(board, difficulty!, ...)]: a [null] difficulty
    falls into the [default] branch, the easy strategy. *)
Definition chooseMoveAt (rnd : nat -> nat) (board : Board) (difficulty : option Difficulty)
    (aiMark playerMark : Player) : option nat * Board :=
  match difficulty with
  | Some d => chooseMove rnd board d aiMark playerMark
  | None => (easyMove rnd board, board)
  end.

(** The callback of the [setTimeout] in [scheduleAITurn], where [ai] is the
    value of [this.state.aiMark!].  [chooseMove] works on the state's own
    board array, which is the one [placeMark] then writes to. *)
Definition aiTimerFires (rnd : nat -> nat) (ai : Player) (s : GameState) : GameState :=
  let s0 := with_aiTimeoutSet false s in
  if negb (gameActive s0) then s0 else
  let '(move, board') := chooseMoveAt rnd (board s0) (difficulty s0) ai (playerMark s0) in
  let s1 := with_board board' s0 in
  let s2 := match move with Some m => placeMark m s1 | None => s1 end in
  let s3 := with_inputLocked false (with_aiThinking false s2) in
  match checkResult (board s3) with
  | RNone => switchPlayer s3
  | result => endGame result s3
  end.

(** [startGame()] *)
Definition startGame (s : GameState) : GameState :=
  let s1 := clearPendingTimers s in
  let s2 := with_inputLocked false (with_gameActive true
              (with_currentPlayer PX (with_board emptyBoard s1))) in
  if is_pvai s2 && oplayer_eqb (aiMark s2) PX then scheduleAITurn s2 else s2.

(** [startPvP()], [startPvAI()], [setDifficulty(d)], [setSide(side)]: the
    menu steps, which end in [startGame] once the game screen is shown. *)
Definition startPvP (s : GameState) : GameState :=
  with_scores (Score.mkScores 0 0 0) (with_aiMark None (with_playerMark PX (with_mode (Some PvP) s))).
Definition startPvAI (s : GameState) : GameState := with_mode (Some PvAI) s.
Definition setDifficulty (d : Difficulty) (s : GameState) : GameState :=
  with_difficulty (Some d) s.
Definition setSide (side : Player) (s : GameState) : GameState :=
  with_scores (Score.mkScores 0 0 0) (with_aiMark (Some (opposite side)) (with_playerMark side s)).

(** The states of the controller from the start of a round on: a round is
    started from the menu (any earlier state) or with Play Again; then the
    player acts on cells, the pending AI timer fires, or the player leaves
    the game screen ([navigateBack('game')], Escape), which clears the
    timers.  Cell actions come from the game screen, so none happens
    between the menu steps and [startGame]. *)
Inductive ctl_reach (rnd : nat -> nat) : GameState -> Prop :=
| ctl_start_pvp : forall s, ctl_reach rnd (startGame (startPvP s))
| ctl_start_pvai : forall s d side,
    ctl_reach rnd (startGame (setSide side (setDifficulty d (startPvAI s))))
| ctl_cell : forall s i, ctl_reach rnd s -> ctl_reach rnd (handleCellAction i s)
| ctl_ai : forall s a, ctl_reach rnd s -> aiTimeoutSet s = true -> aiMark s = Some a ->
    ctl_reach rnd (aiTimerFires rnd a s)
| ctl_leave : forall s, ctl_reach rnd s -> ctl_reach rnd (clearPendingTimers s)
| ctl_again : forall s, ctl_reach rnd s -> ctl_reach rnd (startGame s).

(** The number of cells holding [c]. *)
Definition count_cell (c : BoardCell) (b : Board) : nat := length (filter (cell_eqb c) b).

(** [Math.floor(Math.random() * n)] lies in [0, n) for [n > 0]. *)
Definition rnd_ok (rnd : nat -> nat) : Prop := forall n, (0 < n)%nat -> (rnd n < n)%nat.

(** The state the game starts from in the script ([state]), before the
    menu is used. *)
Definition initialState : GameState :=
  mkState None None PX (Some PO) PX emptyBoard false (Score.mkScores 0 0 0) false false false.

(** The turn order expected from a board: X moves when the counts of X and O are equal, O when X has one more. *)
Definition turn_ok (p : Player) (b : Board) : Prop :=
  (p = PX /\ count_cell CX b = count_cell CO b) \/
  (p = PO /\ count_cell CX b = S (count_cell CO b)).

(** ** Sanity checks *)

Example ex_check1 : checkResult bX = RWin PX [0;1;2]%nat. Proof. reflexivity. Qed.
Example ex_check2 : checkResult bDraw = RDraw. Proof. reflexivity. Qed.
Example ex_mm : fst (minimax emptyBoard 0 true NegInf PosInf PX PO) = Fin 0.
Proof. vm_compute. reflexivity. Qed.
Example ex_hard : fst (hardMove [CX;Empty;Empty;Empty;Empty;Empty;Empty;Empty;Empty] PO PX) = Some 4%nat.
Proof. vm_compute. reflexivity. Qed.

(** ** Board lemmas *)

Lemma ocell_eqb_empty : forall v, ocell_eqb v (Some Empty) = true <-> v = Some Empty.
Proof. intros [[| |]|]; simpl; split; congruence. Qed.

Lemma lookup_some_lt : forall b i c, lookup b i = Some c -> (i < length b)%nat.
Proof. unfold lookup. intros b i c H. apply nth_error_Some. congruence. Qed.

Lemma set_cell_length : forall b i v, length (set_cell b i v) = length b.
Proof. induction b; intros [|i] v; simpl; auto. Qed.

Lemma lookup_set_same : forall b i v, (i < length b)%nat -> lookup (set_cell b i v) i = Some v.
Proof.
  unfold lookup. induction b; intros [|i] v H; simpl in *; try lia; auto.
  apply IHb. lia.
Qed.

Lemma lookup_set_other : forall b i j v, i <> j -> lookup (set_cell b i v) j = lookup b j.
Proof.
  unfold lookup. induction b; intros [|i] [|j] v H; simpl; auto; try congruence.
Qed.

Lemma set_cell_twice : forall b i v w, set_cell (set_cell b i v) i w = set_cell b i w.
Proof. induction b; intros [|i] v w; simpl; f_equal; auto. Qed.

Lemma set_cell_same : forall b i c, lookup b i = Some c -> set_cell b i c = b.
Proof.
  unfold lookup. induction b; intros [|i] c H; simpl in *; try discriminate.
  - congruence.
  - f_equal. auto.
Qed.

(** Placing a mark on an empty cell and clearing it again gives the board back. *)
Lemma place_undo : forall b i m, lookup b i = Some Empty -> set_cell (set_cell b i m) i Empty = b.
Proof. intros. rewrite set_cell_twice. apply set_cell_same. assumption. Qed.

Lemma empties_from_spec : forall b n i,
  In i (empties_from n b) <-> (n <= i)%nat /\ lookup b (i - n) = Some Empty.
Proof.
  unfold lookup. induction b as [|c b IH]; intros n i; simpl.
  - split; [tauto|]. intros [_ H]. destruct (i - n)%nat; discriminate.
  - destruct c; simpl; rewrite ?IH; split.
    + intros [<-|[H1 H2]]; [split; [lia|now rewrite Nat.sub_diag]|].
      split; [lia|]. replace (i - n)%nat with (S (i - S n)) by lia. exact H2.
    + intros [H1 H2]. destruct (Nat.eq_dec i n) as [->|Hne]; [now left|right].
      split; [lia|]. replace (i - n)%nat with (S (i - S n)) in H2 by lia. exact H2.
    + intros [H1 H2]. split; [lia|]. replace (i - n)%nat with (S (i - S n)) by lia. exact H2.
    + intros [H1 H2]. destruct (Nat.eq_dec i n) as [->|Hne].
      { rewrite Nat.sub_diag in H2. discriminate. }
      split; [lia|]. replace (i - n)%nat with (S (i - S n)) in H2 by lia. exact H2.
    + intros [H1 H2]. split; [lia|]. replace (i - n)%nat with (S (i - S n)) by lia. exact H2.
    + intros [H1 H2]. destruct (Nat.eq_dec i n) as [->|Hne].
      { rewrite Nat.sub_diag in H2. discriminate. }
      split; [lia|]. replace (i - n)%nat with (S (i - S n)) in H2 by lia. exact H2.
Qed.

Lemma getEmptyCells_spec : forall b i, In i (getEmptyCells b) <-> lookup b i = Some Empty.
Proof.
  intros b i. unfold getEmptyCells. rewrite empties_from_spec, Nat.sub_0_r.
  split; [tauto|]. intros H; split; [lia|exact H].
Qed.

(** ** Frame: the engine gives the board back *)

Section Restore.
Variable child : Board -> num -> num -> num * Board.
Hypothesis child_restores : forall b a bt, snd (child b a bt) = b.

Lemma maxLoop_restores : forall mark beta idxs b best alpha,
  snd (maxLoop child mark beta idxs b best alpha) = b.
Proof.
  intros mark beta idxs. induction idxs as [|i idxs IH]; intros b best alpha; simpl; auto.
  destruct (ocell_eqb (lookup b i) (Some Empty)) eqn:Hi; auto.
  apply ocell_eqb_empty in Hi.
  pose proof (child_restores (set_cell b i mark) alpha beta) as Hc.
  destruct (child (set_cell b i mark) alpha beta) as [score b2]. simpl in Hc. subst b2.
  rewrite place_undo by exact Hi.
  destruct (num_leb beta (num_max alpha score)); simpl; auto.
Qed.

Lemma minLoop_restores : forall mark alpha idxs b best beta,
  snd (minLoop child mark alpha idxs b best beta) = b.
Proof.
  intros mark alpha idxs. induction idxs as [|i idxs IH]; intros b best beta; simpl; auto.
  destruct (ocell_eqb (lookup b i) (Some Empty)) eqn:Hi; auto.
  apply ocell_eqb_empty in Hi.
  pose proof (child_restores (set_cell b i mark) alpha beta) as Hc.
  destruct (child (set_cell b i mark) alpha beta) as [score b2]. simpl in Hc. subst b2.
  rewrite place_undo by exact Hi.
  destruct (num_leb (num_min beta score) alpha); simpl; auto.
Qed.
End Restore.

Lemma minimax_go_unfold : forall fuel b d m alpha beta ai human,
  minimax_go fuel b d m alpha beta ai human =
  if oplayer_eqb (getWinner b) ai then (Fin (10 - d), b)
  else if oplayer_eqb (getWinner b) human then (Fin (d - 10), b)
  else if negb (includes_empty b) then (Fin 0, b)
  else match fuel with
  | O => (Fin 0, b)
  | S fuel' =>
      if m then
        maxLoop (fun b' a bt => minimax_go fuel' b' (d + 1) false a bt ai human)
          (cell_of ai) beta cells9 b NegInf alpha
      else
        minLoop (fun b' a bt => minimax_go fuel' b' (d + 1) true a bt ai human)
          (cell_of human) alpha cells9 b PosInf beta
  end.
Proof. intros [|fuel]; reflexivity. Qed.

Lemma minimax_go_restores : forall fuel b d m alpha beta ai human,
  snd (minimax_go fuel b d m alpha beta ai human) = b.
Proof.
  induction fuel as [|fuel IH]; intros b d m alpha beta ai human; rewrite minimax_go_unfold;
    destruct (oplayer_eqb (getWinner b) ai); auto;
    destruct (oplayer_eqb (getWinner b) human); auto;
    destruct (negb (includes_empty b)); auto.
  destruct m; [apply maxLoop_restores | apply minLoop_restores]; intros; apply IH.
Qed.

Lemma hardLoop_restores : forall ai human empty b bestScore bestMove,
  (forall idx, In idx empty -> lookup b idx = Some Empty) ->
  snd (hardLoop ai human empty b bestScore bestMove) = b.
Proof.
  intros ai human empty. induction empty as [|idx empty IH]; intros b bs bm Hin; simpl; auto.
  pose proof (minimax_go_restores 10 (set_cell b idx (cell_of ai)) 0 false NegInf PosInf ai human) as Hc.
  unfold minimax.
  destruct (minimax_go 10 (set_cell b idx (cell_of ai)) 0 false NegInf PosInf ai human) as [score b2].
  simpl in Hc. subst b2.
  rewrite place_undo by (apply Hin; now left).
  destruct (num_gtb score bs); apply IH; intros; apply Hin; now right.
Qed.

Lemma hardMove_restores : forall b ai human, snd (hardMove b ai human) = b.
Proof.
  intros. apply hardLoop_restores. intros idx H. now apply getEmptyCells_spec.
Qed.

(** ** Lines and winners *)

Lemma first_some_None : forall {A B} (f : A -> option B) l,
  first_some f l = None <-> forall x, In x l -> f x = None.
Proof.
  induction l as [|x l IH]; simpl; [firstorder|].
  destruct (f x) eqn:E; split.
  - discriminate.
  - intros H. rewrite (H x (or_introl eq_refl)) in E. discriminate.
  - intros H y [<-|Hy]; [exact E|]. apply IH; assumption.
  - intros H. apply IH. intros; apply H; now right.
Qed.

Lemma first_some_Some : forall {A B} (f : A -> option B) l y,
  first_some f l = Some y -> exists x, In x l /\ f x = Some y.
Proof.
  induction l as [|x l IH]; simpl; intros y H; [discriminate|].
  destruct (f x) eqn:E.
  - inversion H; subst. exists x; auto.
  - destruct (IH y H) as [z [Hz Hf]]. exists z; auto.
Qed.

Lemma cell_of_inj : forall p q, cell_of p = cell_of q -> p = q.
Proof. intros [|] [|]; simpl; congruence. Qed.

Lemma ocell_eqb_mark : forall v p, ocell_eqb v (Some (cell_of p)) = true <-> v = Some (cell_of p).
Proof. intros [[| |]|] [|]; simpl; split; congruence. Qed.

Lemma line_winner_spec : forall b x y z p,
  line_winner b [x; y; z] = Some p <->
  lookup b x = Some (cell_of p) /\ lookup b y = Some (cell_of p) /\ lookup b z = Some (cell_of p).
Proof.
  intros b x y z p. unfold line_winner.
  destruct (lookup b x) as [[| |]|], (lookup b y) as [[| |]|], (lookup b z) as [[| |]|], p;
    simpl; intuition congruence.
Qed.

Lemma patterns_shape : forall pat, In pat WIN_PATTERNS -> exists x y z, pat = [x; y; z].
Proof. intros pat H. repeat (destruct H as [<-|H]; [eexists _, _, _; reflexivity|]). destruct H. Qed.

Lemma has_line_spec : forall b p,
  has_line b p = true <-> exists pat, In pat WIN_PATTERNS /\ line_winner b pat = Some p.
Proof.
  intros b p. unfold has_line. rewrite existsb_exists. split.
  - intros [pat [Hin Hall]]. exists pat. split; [exact Hin|].
    destruct (patterns_shape pat Hin) as [x [y [z ->]]].
    apply line_winner_spec. rewrite forallb_forall in Hall.
    repeat split; apply ocell_eqb_mark, Hall; simpl; auto.
  - intros [pat [Hin Hw]]. exists pat. split; [exact Hin|].
    destruct (patterns_shape pat Hin) as [x [y [z ->]]].
    apply line_winner_spec in Hw. destruct Hw as [H1 [H2 H3]].
    simpl. rewrite H1, H2, H3. destruct p; reflexivity.
Qed.

Lemma getWinner_has_line : forall b p, getWinner b = Some p -> has_line b p = true.
Proof.
  intros b p H. apply first_some_Some in H. apply has_line_spec. exact H.
Qed.

Lemma getWinner_None : forall b p, getWinner b = None -> has_line b p = false.
Proof.
  intros b p H. unfold getWinner in H. rewrite first_some_None in H.
  destruct (has_line b p) eqn:E; [|reflexivity].
  apply has_line_spec in E. destruct E as [pat [Hin Hw]]. rewrite H in Hw by exact Hin. discriminate.
Qed.

Lemma other_player : forall p q r : Player, p <> q -> r = p \/ r = q.
Proof. intros [|] [|] [|]; intuition congruence. Qed.

Lemma player_eqb_spec : forall p q, player_eqb p q = true <-> p = q.
Proof. intros [|] [|]; simpl; intuition congruence. Qed.


(** ** C3 *)

(** C3: every call of the engine that writes to the board gives it back
    unchanged: [minimax] (whatever its arguments, including a return
    through a pruning break) and [chooseMove] at hard difficulty
    ([hardMove], whose probe placements are undone). *)
Theorem engine_restores_board : forall b d m alpha beta ai human rnd,
  snd (minimax b d m alpha beta ai human) = b /\
  snd (chooseMove rnd b Hard ai human) = b.
Proof.
  intros. split; [apply minimax_go_restores | apply hardMove_restores].
Qed.

(** ** C4 *)




(** ** C7 *)

(** C7: on a line of three indices, [findWinningMove] returns [k] exactly
    when two of the three cells hold [mark], the remaining one is empty and
    [k] is that empty cell's index; it returns none in every other case
    (0, 1 or 3 cells with [mark], or no empty cell). *)
Theorem findWinningMove_spec : forall b x y z mark,
  let M := Some (cell_of mark) in
  (forall k, findWinningMove b [x; y; z] mark = Some k <->
     (lookup b x = Some Empty /\ lookup b y = M /\ lookup b z = M /\ k = x) \/
     (lookup b x = M /\ lookup b y = Some Empty /\ lookup b z = M /\ k = y) \/
     (lookup b x = M /\ lookup b y = M /\ lookup b z = Some Empty /\ k = z)) /\
  (findWinningMove b [x; y; z] mark = None <->
     ~ ((lookup b x = Some Empty /\ lookup b y = M /\ lookup b z = M) \/
        (lookup b x = M /\ lookup b y = Some Empty /\ lookup b z = M) \/
        (lookup b x = M /\ lookup b y = M /\ lookup b z = Some Empty))).
Proof.
  intros b x y z mark M. subst M. unfold findWinningMove. simpl map.
  destruct (lookup b x) as [[| |]|], (lookup b y) as [[| |]|], (lookup b z) as [[| |]|], mark;
    simpl; split; try (intros k; split); intros; intuition (subst; congruence).
Qed.

(** ** C8 *)

Lemma first_some_Some_first : forall {A B} (f : A -> option B) l y,
  first_some f l = Some y <->
  exists pre x post, l = pre ++ x :: post /\ f x = Some y /\ forall z, In z pre -> f z = None.
Proof.
  induction l as [|a l IH]; intros y; simpl; split.
  - discriminate.
  - intros [pre [x [post [H _]]]]. destruct pre; discriminate.
  - destruct (f a) eqn:E.
    + intros H; inversion H; subst. exists [], a, l. simpl. tauto.
    + intros H. apply IH in H. destruct H as [pre [x [post [H1 [H2 H3]]]]].
      exists (a :: pre), x, post. subst l. simpl. split; [reflexivity|]. split; [exact H2|].
      intros z [<-|Hz]; auto.
  - intros [pre [x [post [H1 [H2 H3]]]]]. destruct pre as [|a' pre]; simpl in H1; inversion H1; subst.
    + rewrite H2. reflexivity.
    + rewrite (H3 a' (or_introl eq_refl)). apply IH. exists pre, x, post.
      split; [reflexivity|]. split; [exact H2|]. intros; apply H3; now right.
Qed.


Lemma line_winner_complete : forall b p w, In p WIN_PATTERNS ->
  (line_winner b p = Some w <-> line_complete b p w).
Proof.
  intros b p w Hin. destruct (patterns_shape p Hin) as [x [y [z ->]]].
  rewrite line_winner_spec. unfold line_complete. split.
  - intros H. exists x, y, z. auto.
  - intros [x' [y' [z' [E H]]]]. inversion E; subst. exact H.
Qed.

Lemma line_winner_None : forall b p, In p WIN_PATTERNS ->
  (line_winner b p = None <-> forall w, ~ line_complete b p w).
Proof.
  intros b p Hin. split.
  - intros H w Hc. apply (line_winner_complete b p w Hin) in Hc. congruence.
  - intros H. destruct (line_winner b p) as [w|] eqn:E; [|reflexivity].
    exfalso. apply (H w). apply line_winner_complete; assumption.
Qed.

Lemma in_app_cons_l : forall {A} (l pre post : list A) x z,
  l = pre ++ x :: post -> In z pre -> In z l.
Proof. intros. subst. apply in_or_app. now left. Qed.

(** C8: [checkResult] reports the first line of [WIN_PATTERNS] whose three
    cells hold one same mark, with that mark; with no such line it reports
    a draw on a board without empty cells and "in progress" otherwise.  On
    ["XXX OO   "] it reports [win{X, [0,1,2]}] and on [XOXXOOOXX] a draw. *)
Theorem checkResult_spec : forall b,
  (forall w p, checkResult b = RWin w p <->
     exists pre post, WIN_PATTERNS = pre ++ p :: post /\ line_complete b p w /\
       forall q, In q pre -> forall w', ~ line_complete b q w') /\
  (checkResult b = RDraw <->
     (forall q, In q WIN_PATTERNS -> forall w, ~ line_complete b q w) /\ includes_empty b = false) /\
  (checkResult b = RNone <->
     (forall q, In q WIN_PATTERNS -> forall w, ~ line_complete b q w) /\ includes_empty b = true) /\
  checkResult [CX;CX;CX;CO;CO;Empty;Empty;Empty;Empty] = RWin PX [0;1;2]%nat /\
  checkResult [CX;CO;CX;CX;CO;CO;CO;CX;CX] = RDraw.
Proof.
  intros b.
  set (f := fun p => option_map (fun w => (w, p)) (line_winner b p)).
  assert (Hnone : first_some f WIN_PATTERNS = None <->
                  forall q, In q WIN_PATTERNS -> forall w, ~ line_complete b q w).
  { rewrite first_some_None. split.
    - intros H q Hq. apply line_winner_None; [exact Hq|].
      specialize (H q Hq). unfold f in H. destruct (line_winner b q); [discriminate|reflexivity].
    - intros H q Hq. unfold f. rewrite (proj2 (line_winner_None b q Hq) (H q Hq)). reflexivity. }
  unfold checkResult. fold f.
  split; [|split; [|split; [|split; reflexivity]]].
  - intros w p. destruct (first_some f WIN_PATTERNS) as [[w0 p0]|] eqn:E.
    + apply first_some_Some_first in E. destruct E as [pre [x [post [H1 [H2 H3]]]]].
      unfold f in H2. destruct (line_winner b x) eqn:Ex; [|discriminate]. simpl in H2.
      inversion H2; subst w0 p0. clear H2.
      assert (Hx : In x WIN_PATTERNS) by (rewrite H1; apply in_or_app; right; now left).
      split.
      * intros Hr. inversion Hr; subst. exists pre, post. split; [exact H1|]. split.
        { apply line_winner_complete; assumption. }
        intros q Hq. apply line_winner_None; [eapply in_app_cons_l; eauto|].
        specialize (H3 q Hq). unfold f in H3. destruct (line_winner b q); [discriminate|reflexivity].
      * intros [pre' [post' [H1' [H2' H3']]]].
        assert (Hp : In p WIN_PATTERNS) by (rewrite H1'; apply in_or_app; right; now left).
        assert (Ef : first_some f WIN_PATTERNS = Some (w, p)).
        { apply first_some_Some_first. exists pre', p, post'. split; [exact H1'|]. split.
          - unfold f. apply line_winner_complete in H2'; [|exact Hp]. rewrite H2'. reflexivity.
          - intros q Hq. unfold f.
            assert (Hq' : In q WIN_PATTERNS) by (eapply in_app_cons_l; eauto).
            rewrite (proj2 (line_winner_None b q Hq') (H3' q Hq)). reflexivity. }
        assert (Ef' : first_some f WIN_PATTERNS = Some (p1, x)).
        { apply first_some_Some_first. exists pre, x, post. split; [exact H1|]. split.
          - unfold f. rewrite Ex. reflexivity.
          - exact H3. }
        rewrite Ef in Ef'. inversion Ef'. reflexivity.
    + split; [destruct (negb (includes_empty b)); discriminate|].
      intros [pre [post [H1 [H2 _]]]].
      assert (Hp : In p WIN_PATTERNS) by (rewrite H1; apply in_or_app; right; now left).
      exfalso. exact (proj1 Hnone eq_refl p Hp w H2).
  - destruct (first_some f WIN_PATTERNS) as [[w0 p0]|] eqn:E.
    + split; [discriminate|]. intros [H _]. apply Hnone in H. congruence.
    + split.
      * intros Hd. split; [apply Hnone; reflexivity|].
        destruct (includes_empty b); [discriminate|reflexivity].
      * intros [_ H]. rewrite H. reflexivity.
  - destruct (first_some f WIN_PATTERNS) as [[w0 p0]|] eqn:E.
    + split; [discriminate|]. intros [H _]. apply Hnone in H. congruence.
    + split.
      * intros Hd. split; [apply Hnone; reflexivity|].
        destruct (includes_empty b); [reflexivity|discriminate].
      * intros [_ H]. rewrite H. reflexivity.
Qed.

(** ** C9 *)

Lemma full_no_empty : forall b i, includes_empty b = false -> lookup b i <> Some Empty.
Proof.
  unfold includes_empty, lookup. induction b as [|c b IH]; intros [|i] H; simpl in *;
    try discriminate.
  - destruct c; simpl in H; congruence.
  - apply orb_false_iff in H. apply IH. tauto.
Qed.

Lemma full_getEmptyCells : forall b, includes_empty b = false -> getEmptyCells b = [].
Proof.
  intros b H. destruct (getEmptyCells b) as [|i l] eqn:E; [reflexivity|].
  exfalso. apply (full_no_empty b i H). apply getEmptyCells_spec. rewrite E. now left.
Qed.

Lemma full_findWinningMove : forall b p m, includes_empty b = false -> findWinningMove b p m = None.
Proof.
  intros b p m H. unfold findWinningMove.
  replace (filter (fun v => ocell_eqb v (Some Empty)) (map (lookup b) p)) with (@nil (option BoardCell)).
  - rewrite andb_false_r. reflexivity.
  - induction p as [|i p IH]; simpl; [reflexivity|].
    destruct (ocell_eqb (lookup b i) (Some Empty)) eqn:E; [|exact IH].
    apply ocell_eqb_empty in E. exfalso. exact (full_no_empty b i H E).
Qed.

Lemma full_first_some_fwm : forall b m, includes_empty b = false ->
  first_some (fun p => findWinningMove b p m) WIN_PATTERNS = None.
Proof.
  intros b m H. apply first_some_None. intros; apply full_findWinningMove; assumption.
Qed.

(** C9: on a board with no empty cell, [chooseMove] returns no move at
    each of the three difficulties (the model is total: no call raises). *)
Theorem chooseMove_full : forall b, includes_empty b = false ->
  forall rnd difficulty ai human, fst (chooseMove rnd b difficulty ai human) = None.
Proof.
  intros b H rnd difficulty ai human.
  destruct difficulty; simpl.
  - unfold easyMove. rewrite full_getEmptyCells by exact H. simpl. destruct (rnd 0%nat); reflexivity.
  - unfold mediumMove. rewrite !full_first_some_fwm by exact H.
    unfold easyMove. rewrite full_getEmptyCells by exact H. simpl. destruct (rnd 0%nat); reflexivity.
  - unfold hardMove. rewrite full_getEmptyCells by exact H. reflexivity.
Qed.

Lemma chooseMove_full_witness :
  includes_empty bDraw = false /\
  fst (chooseMove (fun _ => 0%nat) bDraw Hard PO PX) = None.
Proof. split; [reflexivity|]. apply chooseMove_full. reflexivity. Defined.

(** ** C6 *)

Lemma easyMove_empty_cell : forall rnd b,
  (forall n, (0 < n)%nat -> (rnd n < n)%nat) -> includes_empty b = true ->
  exists i, easyMove rnd b = Some i /\ lookup b i = Some Empty.
Proof.
  intros rnd b Hrnd Hb. unfold easyMove.
  assert (Hne : getEmptyCells b <> []).
  { intros E. unfold includes_empty in Hb. apply existsb_exists in Hb.
    destruct Hb as [c [Hc Hce]]. apply In_nth_error in Hc. destruct Hc as [i Hi].
    destruct c; try discriminate.
    assert (In i (getEmptyCells b)) by (apply getEmptyCells_spec; exact Hi).
    rewrite E in H. destruct H. }
  assert (Hlt : (rnd (length (getEmptyCells b)) < length (getEmptyCells b))%nat).
  { apply Hrnd. destruct (getEmptyCells b); [congruence|simpl; lia]. }
  destruct (nth_error (getEmptyCells b) (rnd (length (getEmptyCells b)))) as [i|] eqn:E.
  - exists i. split; [reflexivity|]. apply getEmptyCells_spec. eapply nth_error_In. exact E.
  - apply nth_error_None in E. lia.
Qed.

(** C6: [mediumMove] plays the move of the first line (in [WIN_PATTERNS]
    order) on which the AI can complete a line; failing that, the move of
    the first line on which the human could; failing that, the easy
    strategy's random choice, which is an empty cell whenever the board has
    one and the random index is in range. *)
Theorem mediumMove_priority : forall rnd b ai human,
  (forall pre p post m, WIN_PATTERNS = pre ++ p :: post ->
     findWinningMove b p ai = Some m ->
     (forall q, In q pre -> findWinningMove b q ai = None) ->
     mediumMove rnd b ai human = Some m) /\
  ((forall q, In q WIN_PATTERNS -> findWinningMove b q ai = None) ->
   forall pre p post m, WIN_PATTERNS = pre ++ p :: post ->
     findWinningMove b p human = Some m ->
     (forall q, In q pre -> findWinningMove b q human = None) ->
     mediumMove rnd b ai human = Some m) /\
  ((forall q, In q WIN_PATTERNS -> findWinningMove b q ai = None) ->
   (forall q, In q WIN_PATTERNS -> findWinningMove b q human = None) ->
   mediumMove rnd b ai human = easyMove rnd b /\
   ((forall n, (0 < n)%nat -> (rnd n < n)%nat) -> includes_empty b = true ->
    exists i, mediumMove rnd b ai human = Some i /\ lookup b i = Some Empty)).
Proof.
  intros rnd b ai human. unfold mediumMove. split; [|split].
  - intros pre p post m H1 H2 H3.
    rewrite (proj2 (first_some_Some_first _ _ _) (ex_intro _ pre (ex_intro _ p (ex_intro _ post (conj H1 (conj H2 H3)))))).
    reflexivity.
  - intros Hai pre p post m H1 H2 H3.
    rewrite (proj2 (first_some_None _ _) Hai).
    rewrite (proj2 (first_some_Some_first _ _ _) (ex_intro _ pre (ex_intro _ p (ex_intro _ post (conj H1 (conj H2 H3)))))).
    reflexivity.
  - intros Hai Hhu.
    rewrite (proj2 (first_some_None _ _) Hai), (proj2 (first_some_None _ _) Hhu).
    split; [reflexivity|]. apply easyMove_empty_cell.
Qed.



Lemma mediumMove_priority_witness :
  mediumMove (fun _ => 0%nat) bMed PX PO = Some 2%nat /\
  mediumMove (fun _ => 0%nat) bBlock PO PX = Some 2%nat /\
  mediumMove (fun _ => 0%nat) emptyBoard PX PO = Some 0%nat.
Proof.
  split; [|split].
  - apply (proj1 (mediumMove_priority (fun _ => 0%nat) bMed PX PO) [] [0;1;2]%nat
             (tl WIN_PATTERNS)); [reflexivity|reflexivity|].
    intros q [].
  - apply (proj1 (proj2 (mediumMove_priority (fun _ => 0%nat) bBlock PO PX))
             ltac:(intros q Hq; repeat (destruct Hq as [<-|Hq]; [reflexivity|]); destruct Hq)
             [] [0;1;2]%nat (tl WIN_PATTERNS)); [reflexivity|reflexivity|].
    intros q [].
  - assert (Hn : forall m q, In q WIN_PATTERNS -> findWinningMove emptyBoard q m = None)
      by (intros [|] q Hq; repeat (destruct Hq as [<-|Hq]; [reflexivity|]); destruct Hq).
    rewrite (proj1 (proj2 (proj2 (mediumMove_priority (fun _ => 0%nat) emptyBoard PX PO))
                      (Hn PX) (Hn PO))).
    reflexivity.
Defined.


(** ** Order on scores *)


Ltac num_solve :=
  repeat match goal with
  | x : num |- _ => destruct x
  end;
  unfold nle, nlt, num_gtb, num_max, num_min in *; simpl in *;
  repeat (match goal with
  | |- context [Z.leb ?a ?b] => destruct (Z.leb_spec a b)
  | H : context [Z.leb ?a ?b] |- _ => destruct (Z.leb_spec a b)
  end; simpl in *);
  try solve [intuition (try discriminate; try congruence; try lia)];
  try (f_equal; lia).

Lemma nle_refl : forall x, nle x x.
Proof. intros; num_solve. Qed.
Lemma nle_trans : forall x y z, nle x y -> nle y z -> nle x z.
Proof. intros; num_solve. Qed.
Lemma nlt_nle : forall x y, nlt x y -> nle x y.
Proof. intros; num_solve. Qed.
Lemma nle_nlt_trans : forall x y z, nle x y -> nlt y z -> nlt x z.
Proof. intros; num_solve. Qed.
Lemma nlt_nle_trans : forall x y z, nlt x y -> nle y z -> nlt x z.
Proof. intros; num_solve. Qed.
Lemma nlt_irrefl : forall x, ~ nlt x x.
Proof. intros; num_solve. Qed.
Lemma nle_not_lt : forall x y, nle x y -> ~ nlt y x.
Proof. intros; num_solve. Qed.
Lemma gtb_false_nle : forall x y, num_gtb x y = false -> nle x y.
Proof. intros; num_solve. Qed.
Lemma leb_false_nlt : forall x y, num_leb x y = false -> nlt y x.
Proof. intros; num_solve. Qed.
Lemma nle_NegInf : forall x, nle NegInf x.
Proof. intros; num_solve. Qed.
Lemma nle_PosInf : forall x, nle x PosInf.
Proof. intros; num_solve. Qed.
Lemma nle_max_l : forall x y, nle x (num_max x y).
Proof. intros; num_solve. Qed.
Lemma nle_max_r : forall x y, nle y (num_max x y).
Proof. intros; num_solve. Qed.
Lemma max_lub : forall x y z, nle x z -> nle y z -> nle (num_max x y) z.
Proof. intros; num_solve. Qed.
Lemma max_cases : forall x y, num_max x y = x \/ num_max x y = y.
Proof. intros x y. unfold num_max. destruct (num_leb x y); auto. Qed.
Lemma nle_min_l : forall x y, nle (num_min x y) x.
Proof. intros; num_solve. Qed.
Lemma nle_min_r : forall x y, nle (num_min x y) y.
Proof. intros; num_solve. Qed.
Lemma min_glb : forall x y z, nle z x -> nle z y -> nle z (num_min x y).
Proof. intros; num_solve. Qed.
Lemma min_cases : forall x y, num_min x y = x \/ num_min x y = y.
Proof. intros x y. unfold num_min. destruct (num_leb x y); auto. Qed.
Lemma max_NegInf_l : forall x, num_max NegInf x = x.
Proof. intros; num_solve. Qed.
Lemma min_PosInf_l : forall x, num_min PosInf x = x.
Proof. intros; num_solve. Qed.

(** ** Recursion budget and score range *)


Lemma count_empty_place : forall b i m, lookup b i = Some Empty -> m <> Empty ->
  count_empty (set_cell b i m) = pred (count_empty b).
Proof.
  unfold count_empty, lookup. induction b as [|c b IH]; intros [|i] m Hi Hm; simpl in *;
    try discriminate.
  - inversion Hi; subst. destruct m; simpl; congruence.
  - destruct (is_empty c); simpl; rewrite IH by assumption; [|reflexivity].
    assert (In Empty (filter is_empty b)) by (apply filter_In; split; [eapply nth_error_In; eauto|reflexivity]).
    destruct (filter is_empty b); [destruct H|]. reflexivity.
Qed.

Lemma includes_empty_count : forall b, includes_empty b = true -> (1 <= count_empty b)%nat.
Proof.
  unfold includes_empty, count_empty. intros b H. apply existsb_exists in H.
  destruct H as [c [Hc He]].
  assert (In c (filter is_empty b)) by (apply filter_In; auto).
  destruct (filter is_empty b); [destruct H|simpl; lia].
Qed.

Lemma includes_empty_lookup9 : forall b, length b = 9%nat -> includes_empty b = true ->
  exists i, In i cells9 /\ lookup b i = Some Empty.
Proof.
  intros b Hl H. unfold includes_empty in H. apply existsb_exists in H.
  destruct H as [c [Hc He]]. apply In_nth_error in Hc. destruct Hc as [i Hi].
  destruct c; try discriminate. exists i. split; [|exact Hi].
  apply in_seq. apply lookup_some_lt in Hi. lia.
Qed.

Lemma cell_of_not_empty : forall p, cell_of p <> Empty.
Proof. intros [|]; discriminate. Qed.

Section Range.
Variable child : Board -> num -> num -> num * Board.
Variable mark : BoardCell.
Variable b : Board.
Hypothesis child_ok : forall i a bt, lookup b i = Some Empty ->
  in_range (fst (child (set_cell b i mark) a bt)) /\ snd (child (set_cell b i mark) a bt) = set_cell b i mark.

Lemma maxLoop_range : forall beta idxs best alpha,
  in_range best \/ (best = NegInf /\ exists i, In i idxs /\ lookup b i = Some Empty) ->
  in_range (fst (maxLoop child mark beta idxs b best alpha)).
Proof.
  intros beta idxs. induction idxs as [|i idxs IH]; intros best alpha Hb; simpl.
  - destruct Hb as [Hb|[_ [i [[] _]]]]. exact Hb.
  - destruct (ocell_eqb (lookup b i) (Some Empty)) eqn:Hi.
    + apply ocell_eqb_empty in Hi. destruct (child_ok i alpha beta Hi) as [Hr Hs].
      destruct (child (set_cell b i mark) alpha beta) as [score b2]. simpl in Hr, Hs. subst b2.
      rewrite place_undo by exact Hi.
      assert (Hm : in_range (num_max best score)).
      { destruct Hb as [Hb|[-> _]]; [|rewrite max_NegInf_l; exact Hr].
        destruct (max_cases best score) as [E|E]; rewrite E; assumption. }
      destruct (num_leb beta (num_max alpha score)); [exact Hm|]. apply IH. now left.
    + apply IH. destruct Hb as [Hb|[Hn [j [[<-|Hj] He]]]]; [now left| |].
      * rewrite He in Hi. discriminate.
      * right. eauto.
Qed.

Lemma minLoop_range : forall alpha idxs best beta,
  in_range best \/ (best = PosInf /\ exists i, In i idxs /\ lookup b i = Some Empty) ->
  in_range (fst (minLoop child mark alpha idxs b best beta)).
Proof.
  intros alpha idxs. induction idxs as [|i idxs IH]; intros best beta Hb; simpl.
  - destruct Hb as [Hb|[_ [i [[] _]]]]. exact Hb.
  - destruct (ocell_eqb (lookup b i) (Some Empty)) eqn:Hi.
    + apply ocell_eqb_empty in Hi. destruct (child_ok i alpha beta Hi) as [Hr Hs].
      destruct (child (set_cell b i mark) alpha beta) as [score b2]. simpl in Hr, Hs. subst b2.
      rewrite place_undo by exact Hi.
      assert (Hm : in_range (num_min best score)).
      { destruct Hb as [Hb|[-> _]]; [|rewrite min_PosInf_l; exact Hr].
        destruct (min_cases best score) as [E|E]; rewrite E; assumption. }
      destruct (num_leb (num_min beta score) alpha); [exact Hm|]. apply IH. now left.
    + apply IH. destruct Hb as [Hb|[Hn [j [[<-|Hj] He]]]]; [now left| |].
      * rewrite He in Hi. discriminate.
      * right. eauto.
Qed.
End Range.

(** On a 9-cell board, every call of [minimax_go] with a budget above the
    number of empty cells, at a depth that leaves room for the remaining
    moves, returns a finite score in [-10, 10]. *)
Lemma minimax_go_range : forall fuel b d m alpha beta ai human,
  length b = 9%nat -> 0 <= d -> d + Z.of_nat (count_empty b) <= 9 ->
  (count_empty b < fuel)%nat ->
  in_range (fst (minimax_go fuel b d m alpha beta ai human)).
Proof.
  induction fuel as [|fuel IH]; intros b d m alpha beta ai human Hl Hd Hde Hf; [lia|].
  rewrite minimax_go_unfold.
  destruct (oplayer_eqb (getWinner b) ai); [exists (10 - d); split; [reflexivity|lia]|].
  destruct (oplayer_eqb (getWinner b) human); [exists (d - 10); split; [reflexivity|lia]|].
  destruct (negb (includes_empty b)) eqn:He; [exists 0; split; [reflexivity|lia]|].
  apply negb_false_iff in He. pose proof (includes_empty_count b He) as H1.
  destruct (includes_empty_lookup9 b Hl He) as [i0 [Hi0 Hl0]].
  assert (Hchild : forall mk, mk <> Empty -> forall m' i a bt, lookup b i = Some Empty ->
     in_range (fst (minimax_go fuel (set_cell b i mk) (d + 1) m' a bt ai human)) /\
     snd (minimax_go fuel (set_cell b i mk) (d + 1) m' a bt ai human) = set_cell b i mk).
  { intros mk Hmk m' i a bt Hi. split; [|apply minimax_go_restores].
    pose proof (count_empty_place b i mk Hi Hmk) as Hc.
    apply IH; [rewrite set_cell_length; exact Hl|lia|rewrite Hc; lia|rewrite Hc; lia]. }
  destruct m.
  - apply maxLoop_range; [intros; apply Hchild; [apply cell_of_not_empty|assumption]|].
    right. split; [reflexivity|]. exists i0; auto.
  - apply minLoop_range; [intros; apply Hchild; [apply cell_of_not_empty|assumption]|].
    right. split; [reflexivity|]. exists i0; auto.
Qed.

Lemma count_empty_le_length : forall b, (count_empty b <= length b)%nat.
Proof. intros b. unfold count_empty. apply filter_length_le. Qed.

(** Every [minimax] call at depth 0 on a 9-cell board, whatever the
    window, is in range. *)
Lemma minimax_range : forall b m alpha beta ai human, length b = 9%nat ->
  in_range (fst (minimax b 0 m alpha beta ai human)).
Proof.
  intros b m alpha beta ai human Hl. pose proof (count_empty_le_length b).
  apply minimax_go_range; lia.
Qed.

(** ** C10 *)

(** C10: on a 9-cell board, [minimax] at depth 0 with the full window
    returns a finite integer between -10 and 10; the running bests
    [-Infinity]/[+Infinity] are never returned. *)
Theorem minimax_full_window_range : forall b m ai human, length b = 9%nat ->
  exists z, fst (minimax b 0 m NegInf PosInf ai human) = Fin z /\ -10 <= z <= 10.
Proof. intros. apply minimax_range. assumption. Qed.

Lemma minimax_full_window_range_witness :
  exists z, fst (minimax emptyBoard 0 true NegInf PosInf PX PO) = Fin z /\ -10 <= z <= 10.
Proof. apply minimax_full_window_range. reflexivity. Defined.

(** ** C5 *)

Lemma empties_from_ge : forall b n, Forall (fun j => (n <= j)%nat) (empties_from n b).
Proof.
  induction b as [|c b IH]; intros n; simpl; [constructor|].
  assert (H : Forall (fun j => (n <= j)%nat) (empties_from (S n) b)).
  { eapply Forall_impl; [|apply IH]. simpl; intros; lia. }
  destruct (is_empty c); [constructor; [lia|]|]; exact H.
Qed.

Lemma empties_from_sorted : forall b n, StronglySorted lt (empties_from n b).
Proof.
  induction b as [|c b IH]; intros n; simpl; [constructor|].
  destruct (is_empty c); [|apply IH].
  constructor; [apply IH|]. eapply Forall_impl; [|apply empties_from_ge]. simpl; intros; lia.
Qed.

Section Hard.
Variables (ai human : Player) (b : Board).


Lemma hardLoop_spec : forall L bs bm,
  StronglySorted lt L -> (forall j, In j L -> lookup b j = Some Empty) ->
  (fst (hardLoop ai human L b bs bm) = bm /\ forall j, In j L -> nle (probe ai human b j) bs) \/
  (exists idx, In idx L /\ fst (hardLoop ai human L b bs bm) = Some idx /\
     nlt bs (probe ai human b idx) /\
     (forall j, In j L -> nle (probe ai human b j) (probe ai human b idx)) /\
     (forall j, In j L -> (j < idx)%nat -> nlt (probe ai human b j) (probe ai human b idx))).
Proof.
  induction L as [|x L IH]; intros bs bm Hs HL; simpl.
  - left. split; [reflexivity|]. intros j [].
  - inversion Hs as [|? ? Hs' Hx]; subst.
    assert (HLx : lookup b x = Some Empty) by (apply HL; now left).
    assert (HL' : forall j, In j L -> lookup b j = Some Empty) by (intros; apply HL; now right).
    pose proof (minimax_go_restores 10 (set_cell b x (cell_of ai)) 0 false NegInf PosInf ai human) as Hr.
    fold (probe ai human b x). unfold minimax.
    destruct (minimax_go 10 (set_cell b x (cell_of ai)) 0 false NegInf PosInf ai human)
      as [score b2] eqn:E. simpl in Hr. subst b2.
    assert (Hsc : score = probe ai human b x) by (unfold probe, minimax; rewrite E; reflexivity).
    rewrite place_undo by exact HLx. rewrite Hsc.
    destruct (num_gtb (probe ai human b x) bs) eqn:G.
    + right. destruct (IH (probe ai human b x) (Some x) Hs' HL') as [[R1 R2]|[idx [R0 [R1 [R2 [R3 R4]]]]]].
      * exists x. split; [now left|]. split; [exact R1|]. split; [exact G|]. split.
        { intros j [<-|Hj]; [apply nle_refl|auto]. }
        intros j [<-|Hj] Hlt; [lia|].
        rewrite Forall_forall in Hx. specialize (Hx j Hj). lia.
      * exists idx. split; [now right|]. split; [exact R1|]. split.
        { eapply nlt_nle_trans; [exact G|]. apply nlt_nle. exact R2. }
        split.
        { intros j [<-|Hj]; [apply nlt_nle; exact R2|auto]. }
        intros j [<-|Hj] Hlt; [exact R2|auto].
    + apply gtb_false_nle in G.
      destruct (IH bs bm Hs' HL') as [[R1 R2]|[idx [R0 [R1 [R2 [R3 R4]]]]]].
      * left. split; [exact R1|]. intros j [<-|Hj]; auto.
      * right. exists idx. split; [now right|]. split; [exact R1|]. split; [exact R2|]. split.
        { intros j [<-|Hj]; [|auto]. apply nlt_nle. eapply nle_nlt_trans; eauto. }
        intros j [<-|Hj] Hlt; [eapply nle_nlt_trans; eauto|auto].
Qed.
End Hard.

(** C5: on a 9-cell board with an empty cell, [hardMove] returns an empty
    cell [idx] whose probe score [minimax(board with ai at idx, 0, false,
    -Infinity, +Infinity, ai, human)] is at least that of every empty cell
    and strictly above that of every empty cell with a smaller index (the
    first maximum in ascending order); on a board with no empty cell it
    returns none. *)
Theorem hardMove_spec : forall b ai human, length b = 9%nat ->
  (includes_empty b = true ->
   exists idx, fst (hardMove b ai human) = Some idx /\ lookup b idx = Some Empty /\
     (forall j, lookup b j = Some Empty -> nle (probe ai human b j) (probe ai human b idx)) /\
     (forall j, lookup b j = Some Empty -> (j < idx)%nat ->
        nlt (probe ai human b j) (probe ai human b idx))) /\
  (includes_empty b = false -> fst (hardMove b ai human) = None).
Proof.
  intros b ai human Hl. split.
  - intros He. unfold hardMove.
    destruct (hardLoop_spec ai human b (getEmptyCells b) NegInf None (empties_from_sorted b 0)
                (fun j H => proj1 (getEmptyCells_spec b j) H))
      as [[R1 R2]|[idx [R0 [R1 [R2 [R3 R4]]]]]].
    + exfalso. destruct (includes_empty_lookup9 b Hl He) as [i [_ Hi]].
      specialize (R2 i (proj2 (getEmptyCells_spec b i) Hi)).
      assert (Hr : in_range (probe ai human b i)).
      { apply minimax_range. rewrite set_cell_length. exact Hl. }
      destruct Hr as [z [Ez _]]. rewrite Ez in R2. discriminate.
    + exists idx. split; [exact R1|]. split; [apply getEmptyCells_spec; exact R0|]. split.
      * intros j Hj. apply R3. apply getEmptyCells_spec. exact Hj.
      * intros j Hj. apply R4. apply getEmptyCells_spec. exact Hj.
  - intros He. unfold hardMove. rewrite full_getEmptyCells by exact He. reflexivity.
Qed.

Lemma hardMove_spec_witness :
  exists idx, fst (hardMove emptyBoard PX PO) = Some idx /\ lookup emptyBoard idx = Some Empty /\
     (forall j, lookup emptyBoard j = Some Empty ->
        nle (probe PX PO emptyBoard j) (probe PX PO emptyBoard idx)) /\
     (forall j, lookup emptyBoard j = Some Empty -> (j < idx)%nat ->
        nlt (probe PX PO emptyBoard j) (probe PX PO emptyBoard idx)).
Proof. apply (proj1 (hardMove_spec emptyBoard PX PO eq_refl)). reflexivity. Defined.

(** ** C2 *)

Lemma nle_total : forall x y, nle x y \/ nlt y x.
Proof. intros; num_solve. Qed.
Lemma nle_antisym : forall x y, nle x y -> nle y x -> x = y.
Proof. intros; num_solve. Qed.
Lemma max_eq_l : forall x y, nle y x -> num_max x y = x.
Proof. intros; num_solve. Qed.
Lemma max_eq_r : forall x y, nle x y -> num_max x y = y.
Proof. intros; num_solve. Qed.
Lemma min_eq_l : forall x y, nle x y -> num_min x y = x.
Proof. intros; num_solve. Qed.
Lemma min_eq_r : forall x y, nle y x -> num_min x y = y.
Proof. intros; num_solve. Qed.
Lemma max_lt : forall x y z, nlt x z -> nlt y z -> nlt (num_max x y) z.
Proof. intros; num_solve. Qed.
Lemma min_gt : forall x y z, nlt z x -> nlt z y -> nlt z (num_min x y).
Proof. intros; num_solve. Qed.
Lemma max_assoc : forall x y z, num_max x (num_max y z) = num_max (num_max x y) z.
Proof. intros; num_solve. Qed.
Lemma min_assoc : forall x y z, num_min x (num_min y z) = num_min (num_min x y) z.
Proof. intros; num_solve. Qed.
Lemma max_NegInf_r : forall x, num_max x NegInf = x.
Proof. intros; num_solve. Qed.
Lemma min_PosInf_r : forall x, num_min x PosInf = x.
Proof. intros; num_solve. Qed.

Ltac nle_contra H1 H2 := exfalso; exact (nle_not_lt _ _ H1 H2).


Lemma fail_soft_refl : forall v alpha beta, fail_soft v v alpha beta.
Proof. intros. unfold fail_soft. split; [|split]; intros; auto using nle_refl. Qed.

(** One candidate of the maximizing ply when the cutoff fires. *)
Lemma max_step_break : forall a0 beta best s c t bestn,
  nlt (num_max a0 best) beta -> fail_soft s c (num_max a0 best) beta ->
  nle beta (num_max (num_max a0 best) s) -> nle (num_max bestn c) t ->
  fail_soft (num_max best s) t a0 beta.
Proof.
  intros a0 beta best s c t bestn Hab [F1 [F2 F3]] Hbr Ht.
  assert (Hs : nle beta s).
  { destruct (nle_total beta s) as [H|H]; [exact H|].
    exfalso. apply (nle_not_lt _ _ Hbr). apply max_lt; assumption. }
  assert (Hb : nlt best beta) by (eapply nle_nlt_trans; [apply nle_max_r|exact Hab]).
  assert (Ha : nlt a0 beta) by (eapply nle_nlt_trans; [apply nle_max_l|exact Hab]).
  rewrite max_eq_r by (apply nlt_nle; eapply nlt_nle_trans; eauto).
  assert (Hct : nle c t) by (eapply nle_trans; [apply nle_max_r|exact Ht]).
  split; [|split].
  - intros H. exfalso. apply (nle_not_lt _ _ H). eapply nlt_nle_trans; eauto.
  - intros _. eapply nle_trans; [apply F2; exact Hs|exact Hct].
  - intros _ H. nle_contra Hs H.
Qed.

(** One candidate of the maximizing ply when the loop goes on. *)
Lemma max_step_continue : forall a0 beta best s c bestn,
  fail_soft s c (num_max a0 best) beta ->
  num_leb beta (num_max (num_max a0 best) s) = false ->
  (nle best a0 -> nle bestn best) -> (nlt a0 best -> bestn = best) ->
  (nle (num_max best s) a0 -> nle (num_max bestn c) (num_max best s)) /\
  (nlt a0 (num_max best s) -> num_max bestn c = num_max best s).
Proof.
  intros a0 beta best s c bestn [F1 [F2 F3]] Hbr R1 R2.
  apply leb_false_nlt in Hbr.
  assert (Hsb : nlt s beta) by (eapply nle_nlt_trans; [apply nle_max_r|exact Hbr]).
  split.
  - intros H.
    assert (Hb : nle best a0) by (eapply nle_trans; [apply nle_max_l|exact H]).
    assert (Hs : nle s a0) by (eapply nle_trans; [apply nle_max_r|exact H]).
    rewrite (max_eq_l a0 best Hb) in F1.
    apply max_lub.
    + eapply nle_trans; [apply R1; exact Hb|apply nle_max_l].
    + eapply nle_trans; [apply F1; exact Hs|apply nle_max_r].
  - intros H. destruct (nle_total s (num_max a0 best)) as [Hs|Hs].
    + pose proof (F1 Hs) as Hc.
      destruct (nle_total best a0) as [Hb|Hb].
      * exfalso. rewrite (max_eq_l a0 best Hb) in Hs.
        apply (nle_not_lt _ _ (max_lub _ _ _ Hb Hs) H).
      * rewrite (R2 Hb). rewrite (max_eq_r a0 best (nlt_nle _ _ Hb)) in Hs.
        rewrite (max_eq_l best s Hs). apply max_eq_l. eapply nle_trans; eauto.
    + pose proof (F3 Hs Hsb) as Hc. subst c.
      assert (Hbs : nlt best s) by (eapply nle_nlt_trans; [apply nle_max_r|exact Hs]).
      rewrite (max_eq_r best s (nlt_nle _ _ Hbs)). apply max_eq_r.
      destruct (nle_total best a0) as [Hb|Hb].
      * eapply nle_trans; [apply R1; exact Hb|apply nlt_nle; exact Hbs].
      * rewrite (R2 Hb). apply nlt_nle; exact Hbs.
Qed.

(** One candidate of the minimizing ply when the cutoff fires. *)
Lemma min_step_break : forall alpha b0 best s c t bestn,
  nlt alpha (num_min b0 best) -> fail_soft s c alpha (num_min b0 best) ->
  nle (num_min (num_min b0 best) s) alpha -> nle t (num_min bestn c) ->
  fail_soft (num_min best s) t alpha b0.
Proof.
  intros alpha b0 best s c t bestn Hab [F1 [F2 F3]] Hbr Ht.
  assert (Hs : nle s alpha).
  { destruct (nle_total s alpha) as [H|H]; [exact H|].
    exfalso. apply (nle_not_lt _ _ Hbr). apply min_gt; assumption. }
  assert (Hb : nlt alpha best) by (eapply nlt_nle_trans; [exact Hab|apply nle_min_r]).
  assert (Ha : nlt alpha b0) by (eapply nlt_nle_trans; [exact Hab|apply nle_min_l]).
  rewrite min_eq_r by (apply nlt_nle; eapply nle_nlt_trans; eauto).
  assert (Hct : nle t c) by (eapply nle_trans; [exact Ht|apply nle_min_r]).
  split; [|split].
  - intros _. eapply nle_trans; [exact Hct|apply F1; exact Hs].
  - intros H. exfalso. apply (nle_not_lt _ _ H). eapply nle_nlt_trans; eauto.
  - intros H _. nle_contra Hs H.
Qed.

(** One candidate of the minimizing ply when the loop goes on. *)
Lemma min_step_continue : forall alpha b0 best s c bestn,
  fail_soft s c alpha (num_min b0 best) ->
  num_leb (num_min (num_min b0 best) s) alpha = false ->
  (nle b0 best -> nle best bestn) -> (nlt best b0 -> bestn = best) ->
  (nle b0 (num_min best s) -> nle (num_min best s) (num_min bestn c)) /\
  (nlt (num_min best s) b0 -> num_min bestn c = num_min best s).
Proof.
  intros alpha b0 best s c bestn [F1 [F2 F3]] Hbr R1 R2.
  apply leb_false_nlt in Hbr.
  assert (Has : nlt alpha s) by (eapply nlt_nle_trans; [exact Hbr|apply nle_min_r]).
  split.
  - intros H.
    assert (Hb : nle b0 best) by (eapply nle_trans; [exact H|apply nle_min_l]).
    assert (Hs : nle b0 s) by (eapply nle_trans; [exact H|apply nle_min_r]).
    rewrite (min_eq_l b0 best Hb) in F2.
    apply min_glb.
    + eapply nle_trans; [apply nle_min_l|apply R1; exact Hb].
    + eapply nle_trans; [apply nle_min_r|apply F2; exact Hs].
  - intros H. destruct (nle_total (num_min b0 best) s) as [Hs|Hs].
    + pose proof (F2 Hs) as Hc.
      destruct (nle_total b0 best) as [Hb|Hb].
      * exfalso. rewrite (min_eq_l b0 best Hb) in Hs.
        apply (nle_not_lt _ _ (min_glb _ _ _ Hb Hs) H).
      * rewrite (R2 Hb). rewrite (min_eq_r b0 best (nlt_nle _ _ Hb)) in Hs.
        rewrite (min_eq_l best s Hs). apply min_eq_l. eapply nle_trans; eauto.
    + pose proof (F3 Has Hs) as Hc. subst c.
      assert (Hbs : nlt s best) by (eapply nlt_nle_trans; [exact Hs|apply nle_min_r]).
      rewrite (min_eq_r best s (nlt_nle _ _ Hbs)). apply min_eq_r.
      destruct (nle_total b0 best) as [Hb|Hb].
      * eapply nle_trans; [apply nlt_nle; exact Hbs|apply R1; exact Hb].
      * rewrite (R2 Hb). apply nlt_nle; exact Hbs.
Qed.

Section AlphaBeta.
Variables child_p child_n : Board -> num -> num -> num * Board.
Hypothesis p_restores : forall b a bt, snd (child_p b a bt) = b.
Hypothesis n_restores : forall b a bt, snd (child_n b a bt) = b.
Hypothesis n_indep : forall b a bt a' bt', fst (child_n b a bt) = fst (child_n b a' bt').
Hypothesis p_sound : forall b a bt, nlt a bt ->
  fail_soft (fst (child_p b a bt)) (fst (child_n b a bt)) a bt.

Lemma maxNoPrune_mono : forall mark beta idxs b best alpha,
  nle best (fst (maxLoopNoPrune child_n mark beta idxs b best alpha)).
Proof.
  intros mark beta idxs. induction idxs as [|i idxs IH]; intros b best alpha; simpl;
    [apply nle_refl|].
  destruct (ocell_eqb (lookup b i) (Some Empty)) eqn:Hi; [|apply IH].
  apply ocell_eqb_empty in Hi. pose proof (n_restores (set_cell b i mark) alpha beta) as Hr.
  destruct (child_n (set_cell b i mark) alpha beta) as [c bn]. simpl in Hr. subst bn.
  rewrite place_undo by exact Hi. eapply nle_trans; [apply nle_max_l|apply IH].
Qed.

Lemma minNoPrune_mono : forall mark alpha idxs b best beta,
  nle (fst (minLoopNoPrune child_n mark alpha idxs b best beta)) best.
Proof.
  intros mark alpha idxs. induction idxs as [|i idxs IH]; intros b best beta; simpl;
    [apply nle_refl|].
  destruct (ocell_eqb (lookup b i) (Some Empty)) eqn:Hi; [|apply IH].
  apply ocell_eqb_empty in Hi. pose proof (n_restores (set_cell b i mark) alpha beta) as Hr.
  destruct (child_n (set_cell b i mark) alpha beta) as [c bn]. simpl in Hr. subst bn.
  rewrite place_undo by exact Hi. eapply nle_trans; [apply IH|apply nle_min_l].
Qed.

Lemma maxNoPrune_indep : forall mark beta beta' idxs b best alpha alpha',
  fst (maxLoopNoPrune child_n mark beta idxs b best alpha) =
  fst (maxLoopNoPrune child_n mark beta' idxs b best alpha').
Proof.
  intros mark beta beta' idxs. induction idxs as [|i idxs IH]; intros b best alpha alpha'; simpl;
    [reflexivity|].
  destruct (ocell_eqb (lookup b i) (Some Empty)) eqn:Hi; [|apply IH].
  apply ocell_eqb_empty in Hi.
  pose proof (n_restores (set_cell b i mark) alpha beta) as Hr.
  pose proof (n_restores (set_cell b i mark) alpha' beta') as Hr'.
  pose proof (n_indep (set_cell b i mark) alpha beta alpha' beta') as Hs.
  destruct (child_n (set_cell b i mark) alpha beta) as [c bn].
  destruct (child_n (set_cell b i mark) alpha' beta') as [c' bn'].
  simpl in Hr, Hr', Hs. subst. rewrite place_undo by exact Hi. apply IH.
Qed.

Lemma minNoPrune_indep : forall mark alpha alpha' idxs b best beta beta',
  fst (minLoopNoPrune child_n mark alpha idxs b best beta) =
  fst (minLoopNoPrune child_n mark alpha' idxs b best beta').
Proof.
  intros mark alpha alpha' idxs. induction idxs as [|i idxs IH]; intros b best beta beta'; simpl;
    [reflexivity|].
  destruct (ocell_eqb (lookup b i) (Some Empty)) eqn:Hi; [|apply IH].
  apply ocell_eqb_empty in Hi.
  pose proof (n_restores (set_cell b i mark) alpha beta) as Hr.
  pose proof (n_restores (set_cell b i mark) alpha' beta') as Hr'.
  pose proof (n_indep (set_cell b i mark) alpha beta alpha' beta') as Hs.
  destruct (child_n (set_cell b i mark) alpha beta) as [c bn].
  destruct (child_n (set_cell b i mark) alpha' beta') as [c' bn'].
  simpl in Hr, Hr', Hs. subst. rewrite place_undo by exact Hi. apply IH.
Qed.

Lemma maxLoop_fail_soft : forall a0 beta mark idxs b best alpha bestn alphan,
  alpha = num_max a0 best -> nlt alpha beta ->
  (nle best a0 -> nle bestn best) -> (nlt a0 best -> bestn = best) ->
  fail_soft (fst (maxLoop child_p mark beta idxs b best alpha))
            (fst (maxLoopNoPrune child_n mark beta idxs b bestn alphan)) a0 beta.
Proof.
  intros a0 beta mark idxs. induction idxs as [|i idxs IH];
    intros b best alpha bestn alphan Ha Hab R1 R2; simpl.
  - subst alpha. split; [exact R1|split].
    + intros H. exfalso. apply (nle_not_lt _ _ H). eapply nle_nlt_trans; [apply nle_max_r|exact Hab].
    + intros H _. symmetry. exact (R2 H).
  - destruct (ocell_eqb (lookup b i) (Some Empty)) eqn:Hi; [|apply IH; assumption].
    apply ocell_eqb_empty in Hi.
    pose proof (p_restores (set_cell b i mark) alpha beta) as Hrp.
    pose proof (n_restores (set_cell b i mark) alphan beta) as Hrn.
    pose proof (n_indep (set_cell b i mark) alpha beta alphan beta) as Hin.
    pose proof (p_sound (set_cell b i mark) alpha beta Hab) as Hfs.
    destruct (child_p (set_cell b i mark) alpha beta) as [s bp].
    destruct (child_n (set_cell b i mark) alphan beta) as [c bn].
    simpl in Hrp, Hrn, Hfs, Hin. subst bp bn. rewrite Hin in Hfs. clear Hin.
    rewrite !place_undo by exact Hi. subst alpha.
    destruct (num_leb beta (num_max (num_max a0 best) s)) eqn:Hbr.
    + simpl. eapply max_step_break; eauto. apply maxNoPrune_mono.
    + destruct (max_step_continue a0 beta best s c bestn Hfs Hbr R1 R2) as [R1' R2'].
      apply IH; auto.
      * symmetry. apply max_assoc.
      * apply leb_false_nlt. exact Hbr.
Qed.

Lemma minLoop_fail_soft : forall alpha b0 mark idxs b best beta bestn betan,
  beta = num_min b0 best -> nlt alpha beta ->
  (nle b0 best -> nle best bestn) -> (nlt best b0 -> bestn = best) ->
  fail_soft (fst (minLoop child_p mark alpha idxs b best beta))
            (fst (minLoopNoPrune child_n mark alpha idxs b bestn betan)) alpha b0.
Proof.
  intros alpha b0 mark idxs. induction idxs as [|i idxs IH];
    intros b best beta bestn betan Hb Hab R1 R2; simpl.
  - subst beta. split; [|split; [exact R1|]].
    + intros H. exfalso. apply (nle_not_lt _ _ H). eapply nlt_nle_trans; [exact Hab|apply nle_min_r].
    + intros _ H. symmetry. exact (R2 H).
  - destruct (ocell_eqb (lookup b i) (Some Empty)) eqn:Hi; [|apply IH; assumption].
    apply ocell_eqb_empty in Hi.
    pose proof (p_restores (set_cell b i mark) alpha beta) as Hrp.
    pose proof (n_restores (set_cell b i mark) alpha betan) as Hrn.
    pose proof (n_indep (set_cell b i mark) alpha beta alpha betan) as Hin.
    pose proof (p_sound (set_cell b i mark) alpha beta Hab) as Hfs.
    destruct (child_p (set_cell b i mark) alpha beta) as [s bp].
    destruct (child_n (set_cell b i mark) alpha betan) as [c bn].
    simpl in Hrp, Hrn, Hfs, Hin. subst bp bn. rewrite Hin in Hfs. clear Hin.
    rewrite !place_undo by exact Hi. subst beta.
    destruct (num_leb (num_min (num_min b0 best) s) alpha) eqn:Hbr.
    + simpl. eapply min_step_break; eauto. apply minNoPrune_mono.
    + destruct (min_step_continue alpha b0 best s c bestn Hfs Hbr R1 R2) as [R1' R2'].
      apply IH; auto.
      * symmetry. apply min_assoc.
      * apply leb_false_nlt. exact Hbr.
Qed.
End AlphaBeta.

Lemma minimax_noprune_go_unfold : forall fuel b d m alpha beta ai human,
  minimax_noprune_go fuel b d m alpha beta ai human =
  if oplayer_eqb (getWinner b) ai then (Fin (10 - d), b)
  else if oplayer_eqb (getWinner b) human then (Fin (d - 10), b)
  else if negb (includes_empty b) then (Fin 0, b)
  else match fuel with
  | O => (Fin 0, b)
  | S fuel' =>
      if m then
        maxLoopNoPrune (fun b' a bt => minimax_noprune_go fuel' b' (d + 1) false a bt ai human)
          (cell_of ai) beta cells9 b NegInf alpha
      else
        minLoopNoPrune (fun b' a bt => minimax_noprune_go fuel' b' (d + 1) true a bt ai human)
          (cell_of human) alpha cells9 b PosInf beta
  end.
Proof. intros [|fuel]; reflexivity. Qed.

Lemma maxLoopNoPrune_restores : forall child, (forall b a bt, snd (child b a bt) = b) ->
  forall mark beta idxs b best alpha, snd (maxLoopNoPrune child mark beta idxs b best alpha) = b.
Proof.
  intros child Hc mark beta idxs. induction idxs as [|i idxs IH]; intros b best alpha; simpl; auto.
  destruct (ocell_eqb (lookup b i) (Some Empty)) eqn:Hi; auto.
  apply ocell_eqb_empty in Hi. pose proof (Hc (set_cell b i mark) alpha beta) as Hr.
  destruct (child (set_cell b i mark) alpha beta) as [s b2]. simpl in Hr. subst b2.
  rewrite place_undo by exact Hi. apply IH.
Qed.

Lemma minLoopNoPrune_restores : forall child, (forall b a bt, snd (child b a bt) = b) ->
  forall mark alpha idxs b best beta, snd (minLoopNoPrune child mark alpha idxs b best beta) = b.
Proof.
  intros child Hc mark alpha idxs. induction idxs as [|i idxs IH]; intros b best beta; simpl; auto.
  destruct (ocell_eqb (lookup b i) (Some Empty)) eqn:Hi; auto.
  apply ocell_eqb_empty in Hi. pose proof (Hc (set_cell b i mark) alpha beta) as Hr.
  destruct (child (set_cell b i mark) alpha beta) as [s b2]. simpl in Hr. subst b2.
  rewrite place_undo by exact Hi. apply IH.
Qed.

Lemma minimax_noprune_go_restores : forall fuel b d m alpha beta ai human,
  snd (minimax_noprune_go fuel b d m alpha beta ai human) = b.
Proof.
  induction fuel as [|fuel IH]; intros b d m alpha beta ai human; rewrite minimax_noprune_go_unfold;
    destruct (oplayer_eqb (getWinner b) ai); auto;
    destruct (oplayer_eqb (getWinner b) human); auto;
    destruct (negb (includes_empty b)); auto.
  destruct m; [apply maxLoopNoPrune_restores | apply minLoopNoPrune_restores]; intros; apply IH.
Qed.

(** The unpruned search does not depend on the window it is given. *)
Lemma minimax_noprune_go_indep : forall fuel b d m alpha beta alpha' beta' ai human,
  fst (minimax_noprune_go fuel b d m alpha beta ai human) =
  fst (minimax_noprune_go fuel b d m alpha' beta' ai human).
Proof.
  induction fuel as [|fuel IH]; intros b d m alpha beta alpha' beta' ai human;
    rewrite !minimax_noprune_go_unfold;
    destruct (oplayer_eqb (getWinner b) ai); auto;
    destruct (oplayer_eqb (getWinner b) human); auto;
    destruct (negb (includes_empty b)); auto.
  destruct m.
  - apply maxNoPrune_indep; [intros; apply minimax_noprune_go_restores|intros; apply IH].
  - apply minNoPrune_indep; [intros; apply minimax_noprune_go_restores|intros; apply IH].
Qed.

(** Alpha-beta with a non-empty window is fail-soft with respect to the
    unpruned search. *)
Lemma minimax_go_fail_soft : forall fuel b d m alpha beta ai human, nlt alpha beta ->
  fail_soft (fst (minimax_go fuel b d m alpha beta ai human))
            (fst (minimax_noprune_go fuel b d m alpha beta ai human)) alpha beta.
Proof.
  induction fuel as [|fuel IH]; intros b d m alpha beta ai human Hab;
    rewrite minimax_go_unfold, minimax_noprune_go_unfold;
    destruct (oplayer_eqb (getWinner b) ai); try apply fail_soft_refl;
    destruct (oplayer_eqb (getWinner b) human); try apply fail_soft_refl;
    destruct (negb (includes_empty b)); try apply fail_soft_refl.
  destruct m.
  - apply maxLoop_fail_soft.
    + intros; apply minimax_go_restores.
    + intros; apply minimax_noprune_go_restores.
    + intros; apply minimax_noprune_go_indep.
    + intros; apply IH; assumption.
    + symmetry. apply max_NegInf_r.
    + exact Hab.
    + intros _. apply nle_refl.
    + intros H. exfalso. apply (nle_not_lt _ _ (nle_NegInf alpha) H).
  - apply minLoop_fail_soft.
    + intros; apply minimax_go_restores.
    + intros; apply minimax_noprune_go_restores.
    + intros; apply minimax_noprune_go_indep.
    + intros; apply IH; assumption.
    + symmetry. apply min_PosInf_r.
    + exact Hab.
    + intros _. apply nle_refl.
    + intros H. exfalso. apply (nle_not_lt _ _ (nle_PosInf beta) H).
Qed.

Lemma fail_soft_full_window : forall v t, fail_soft v t NegInf PosInf -> v = t.
Proof.
  intros v t [F1 [F2 F3]].
  destruct (nle_total v NegInf) as [H|H].
  - apply nle_antisym; [|apply F1; exact H].
    eapply nle_trans; [exact H|apply nle_NegInf].
  - destruct (nle_total PosInf v) as [H'|H'].
    + apply nle_antisym; [apply F2; exact H'|]. eapply nle_trans; [apply nle_PosInf|exact H'].
    + apply F3; assumption.
Qed.

(** C2: with the full window [-Infinity, +Infinity], [minimax] returns the
    same score as the same search without the cutoff breaks (and both give
    the board back), for every board, depth, maximizing flag and marks. *)
Theorem minimax_pruning_exact : forall b d m ai human,
  minimax b d m NegInf PosInf ai human = minimax_noprune b d m NegInf PosInf ai human.
Proof.
  intros b d m ai human. unfold minimax, minimax_noprune.
  pose proof (minimax_go_fail_soft 10 b d m NegInf PosInf ai human eq_refl) as H.
  apply fail_soft_full_window in H.
  pose proof (minimax_go_restores 10 b d m NegInf PosInf ai human) as R1.
  pose proof (minimax_noprune_go_restores 10 b d m NegInf PosInf ai human) as R2.
  destruct (minimax_go 10 b d m NegInf PosInf ai human), (minimax_noprune_go 10 b d m NegInf PosInf ai human).
  simpl in *. congruence.
Qed.

(** ** C1 *)

Lemma reachable_length : forall rnd ai human b t, reachable rnd ai human b t -> length b = 9%nat.
Proof.
  intros rnd ai human b t H. induction H as [|bd i bd' H IH Hc Hm|bd j H IH Hc Hj].
  - reflexivity.
  - rewrite set_cell_length. simpl in Hm.
    pose proof (hardMove_restores bd ai human) as R. rewrite Hm in R. simpl in R. subst. exact IH.
  - rewrite set_cell_length. exact IH.
Qed.

Lemma safe_go_unfold : forall n ai human b t,
  safe_go n ai human b t =
  if has_line b human then false else
  match checkResult b with
  | RNone =>
      match n with
      | O => false
      | S f =>
          if t then
            match hardMove b ai human with
            | (Some i, b') => safe_go f ai human (set_cell b' i (cell_of ai)) false
            | (None, _) => false
            end
          else
            forallb (fun j => match lookup b j with
                              | Some Empty => safe_go f ai human (set_cell b j (cell_of human)) true
                              | _ => true
                              end) cells9
      end
  | _ => true
  end.
Proof. intros [|n]; reflexivity. Qed.

Lemma safe_go_no_human_line : forall n ai human b t,
  safe_go n ai human b t = true -> has_line b human = false.
Proof.
  intros n ai human b t H. rewrite safe_go_unfold in H.
    destruct (has_line b human); [discriminate|reflexivity].
Qed.

Lemma safe_go_start : forall ai human aiFirst, ai <> human ->
  safe_go 10 ai human emptyBoard aiFirst = true.
Proof.
  intros [|] [|] [|] H; try (exfalso; apply H; reflexivity); vm_compute; reflexivity.
Qed.

Lemma safe_go_reachable : forall rnd ai human, ai <> human ->
  forall b t, reachable rnd ai human b t -> exists n, safe_go n ai human b t = true.
Proof.
  intros rnd ai human Hne b t H. induction H as [aiFirst|b i b' H IH Hc Hm|b j H IH Hc Hj].
  - exists 10%nat. apply safe_go_start. exact Hne.
  - destruct IH as [[|n] Hs]; rewrite safe_go_unfold in Hs; destruct (has_line b human); try discriminate;
      rewrite Hc in Hs; [discriminate|].
    exists n. simpl in Hm. rewrite Hm in Hs. exact Hs.
  - destruct IH as [[|n] Hs]; rewrite safe_go_unfold in Hs; destruct (has_line b human); try discriminate;
      rewrite Hc in Hs; [discriminate|].
    exists n. rewrite forallb_forall in Hs.
    assert (Hin : In j cells9).
    { apply in_seq. apply lookup_some_lt in Hj. rewrite (reachable_length _ _ _ _ _ H) in Hj. lia. }
    specialize (Hs j Hin). rewrite Hj in Hs. exact Hs.
Qed.

Lemma checkResult_win : forall b w p, checkResult b = RWin w p ->
  In p WIN_PATTERNS /\ line_winner b p = Some w.
Proof.
  intros b w p H. unfold checkResult in H.
  destruct (first_some _ WIN_PATTERNS) as [[w' p']|] eqn:E.
  - inversion H; subst. apply first_some_Some in E. destruct E as [q [Hq Hf]].
    destruct (line_winner b q) eqn:L; simpl in Hf; inversion Hf; subst. auto.
  - destruct (negb (includes_empty b)); discriminate.
Qed.

Lemma checkResult_win_line : forall b w p, checkResult b = RWin w p -> has_line b w = true.
Proof.
  intros b w p H. apply has_line_spec. exists p. apply checkResult_win. exact H.
Qed.

(** C1: in a round against the hard strategy, from the empty board with
    either side first, whatever empty cells the human picks, no state
    reached has a completed line of the human's mark; every finished round
    ends in an AI win or a draw. *)
Theorem hard_unbeatable : forall rnd ai human, ai <> human ->
  forall b t, reachable rnd ai human b t ->
    has_line b human = false /\
    (checkResult b = RNone \/ checkResult b = RDraw \/ exists p, checkResult b = RWin ai p).
Proof.
  intros rnd ai human Hne b t H.
  destruct (safe_go_reachable rnd ai human Hne b t H) as [n Hs].
  pose proof (safe_go_no_human_line _ _ _ _ _ Hs) as Hh. split; [exact Hh|].
  destruct (checkResult b) as [w p| |] eqn:E; auto.
  right; right. exists p.
  pose proof (checkResult_win_line b w p E) as Hw.
  destruct (other_player ai human w Hne) as [Hr|Hr]; subst w; [reflexivity|congruence].
Qed.

Lemma hard_unbeatable_witness :
  let b1 := set_cell emptyBoard 0 (cell_of PO) in
  let b2 := set_cell b1 4 (cell_of PX) in
  let b3 := set_cell b2 8 (cell_of PO) in
  let b4 := set_cell b3 1 (cell_of PX) in
  has_line b4 PO = false /\
  (checkResult b4 = RNone \/ checkResult b4 = RDraw \/ exists p, checkResult b4 = RWin PX p).
Proof.
  intros b1 b2 b3 b4.
  apply (hard_unbeatable (fun _ => 0%nat) PX PO ltac:(discriminate) b4 false).
  apply (reach_ai _ _ _ b3 1 b3); [|vm_compute; reflexivity|vm_compute; reflexivity].
  apply (reach_human _ _ _ b2 8); [|vm_compute; reflexivity|vm_compute; reflexivity].
  apply (reach_ai _ _ _ b1 4 b1); [|vm_compute; reflexivity|vm_compute; reflexivity].
  apply (reach_human _ _ _ emptyBoard 0); [|vm_compute; reflexivity|vm_compute; reflexivity].
  apply reach_start.
Defined.

(** ** Further properties of the engine and the controller *)

Lemma empties_from_length : forall b n, length (empties_from n b) = count_empty b.
Proof.
  induction b as [|c b IH]; intros n; [reflexivity|].
  unfold count_empty in *. cbn [empties_from filter].
  destruct (is_empty c); cbn [length]; rewrite IH; reflexivity.
Qed.

Lemma first_some_pair : forall b l,
  first_some (line_winner b) l =
  option_map fst (first_some (fun p => option_map (fun w => (w, p)) (line_winner b p)) l).
Proof.
  intros b. induction l as [|p l IH]; [reflexivity|]. cbn [first_some].
  destruct (line_winner b p); [reflexivity|exact IH].
Qed.

Lemma indexOf_empty_nth : forall l k, indexOf_empty l = Some k -> nth_error l k = Some (Some Empty).
Proof.
  induction l as [|v l IH]; intros k H; cbn [indexOf_empty] in H; [discriminate|].
  destruct (ocell_eqb v (Some Empty)) eqn:E.
  - inversion H; subst. apply ocell_eqb_empty in E. subst. reflexivity.
  - destruct (indexOf_empty l) as [j|] eqn:E2; cbn [option_map] in H; [|discriminate].
    inversion H; subst. apply IH. reflexivity.
Qed.

Lemma findWinningMove_empty : forall b p m k, findWinningMove b p m = Some k -> lookup b k = Some Empty.
Proof.
  intros b p m k H. unfold findWinningMove in H. cbv zeta in H.
  destruct (_ && _); [|discriminate].
  destruct (indexOf_empty (map (lookup b) p)) as [j|] eqn:E; [|discriminate].
  apply indexOf_empty_nth in E. rewrite nth_error_map, H in E. cbn in E. congruence.
Qed.

Lemma findWinningMove_cases : forall b x y z m k, findWinningMove b [x; y; z] m = Some k ->
  (lookup b x = Some Empty /\ lookup b y = Some (cell_of m) /\ lookup b z = Some (cell_of m) /\ k = x) \/
  (lookup b x = Some (cell_of m) /\ lookup b y = Some Empty /\ lookup b z = Some (cell_of m) /\ k = y) \/
  (lookup b x = Some (cell_of m) /\ lookup b y = Some (cell_of m) /\ lookup b z = Some Empty /\ k = z).
Proof.
  intros b x y z m k H. unfold findWinningMove in H. simpl map in H.
  destruct (lookup b x) as [[| |]|], (lookup b y) as [[| |]|], (lookup b z) as [[| |]|], m;
    simpl in H; try discriminate; inversion H; subst; simpl; tauto.
Qed.

Lemma patterns_distinct : forall x y z, In [x; y; z] WIN_PATTERNS -> x <> y /\ x <> z /\ y <> z.
Proof.
  intros x y z H. repeat (destruct H as [H|H]; [inversion H; subst; lia|]). destruct H.
Qed.

Lemma hardLoop_result : forall ai human L b bs bm,
  fst (hardLoop ai human L b bs bm) = bm \/
  exists idx, In idx L /\ fst (hardLoop ai human L b bs bm) = Some idx.
Proof.
  induction L as [|x L IH]; intros b bs bm; cbn [hardLoop]; [left; reflexivity|].
  destruct (minimax (set_cell b x (cell_of ai)) 0 false NegInf PosInf ai human) as [score b2].
  destruct (num_gtb score bs).
  - destruct (IH (set_cell b2 x Empty) score (Some x)) as [E|[idx [Hi E]]]; right;
      [exists x|exists idx]; split; auto. now left. now right.
  - destruct (IH (set_cell b2 x Empty) bs bm) as [E|[idx [Hi E]]]; [left|right; exists idx]; auto.
    split; [now right|exact E].
Qed.

Lemma easyMove_in : forall rnd b i, easyMove rnd b = Some i -> lookup b i = Some Empty.
Proof.
  intros rnd b i H. unfold easyMove in H. apply nth_error_In in H. apply getEmptyCells_spec. exact H.
Qed.

Lemma chooseMove_empty : forall rnd b d ai human i,
  fst (chooseMove rnd b d ai human) = Some i -> lookup b i = Some Empty.
Proof.
  intros rnd b d ai human i H. destruct d; cbn [chooseMove fst] in H.
  - eapply easyMove_in; eauto.
  - unfold mediumMove in H.
    destruct (first_some (fun p => findWinningMove b p ai) WIN_PATTERNS) as [mv|] eqn:E1.
    + inversion H; subst. apply first_some_Some in E1. destruct E1 as [p [_ Hf]].
      eapply findWinningMove_empty; eauto.
    + destruct (first_some (fun p => findWinningMove b p human) WIN_PATTERNS) as [mv|] eqn:E2.
      * inversion H; subst. apply first_some_Some in E2. destruct E2 as [p [_ Hf]].
        eapply findWinningMove_empty; eauto.
      * eapply easyMove_in; eauto.
  - unfold hardMove in H.
    destruct (hardLoop_result ai human (getEmptyCells b) b NegInf None) as [E|[idx [Hi E]]];
      rewrite E in H; [discriminate|].
    inversion H; subst. apply getEmptyCells_spec. exact Hi.
Qed.

Lemma hardMove_some : forall b ai human, length b = 9%nat -> includes_empty b = true ->
  exists i, fst (hardMove b ai human) = Some i.
Proof.
  intros b ai human Hl He. unfold hardMove.
  destruct (hardLoop_spec ai human b (getEmptyCells b) NegInf None (empties_from_sorted b 0)
              (fun j H => proj1 (getEmptyCells_spec b j) H))
    as [[R1 R2]|[idx [R0 [R1 _]]]].
  - exfalso. destruct (includes_empty_lookup9 b Hl He) as [i [_ Hi]].
    specialize (R2 i (proj2 (getEmptyCells_spec b i) Hi)).
    assert (Hr : in_range (probe ai human b i)).
    { apply minimax_range. rewrite set_cell_length. exact Hl. }
    destruct Hr as [z [Ez _]]. rewrite Ez in R2. discriminate.
  - exists idx. exact R1.
Qed.

Lemma chooseMove_some : forall rnd b d ai human, rnd_ok rnd -> length b = 9%nat ->
  includes_empty b = true -> exists i, fst (chooseMove rnd b d ai human) = Some i.
Proof.
  intros rnd b d ai human Hr Hl He. destruct d; cbn [chooseMove fst].
  - destruct (easyMove_empty_cell rnd b Hr He) as [i [Hi _]]. eauto.
  - unfold mediumMove.
    destruct (first_some (fun p => findWinningMove b p ai) WIN_PATTERNS) as [mv|]; [eauto|].
    destruct (first_some (fun p => findWinningMove b p human) WIN_PATTERNS) as [mv|]; [eauto|].
    destruct (easyMove_empty_cell rnd b Hr He) as [i [Hi _]]. eauto.
  - apply hardMove_some; assumption.
Qed.

Lemma chooseMove_board : forall rnd b d ai human, snd (chooseMove rnd b d ai human) = b.
Proof. intros rnd b [| |] ai human; [reflexivity|reflexivity|apply hardMove_restores]. Qed.

(** X1: getEmptyCells lists exactly the empty cells of the board, in strictly ascending index order and without repetition, so its length is the number of empty cells. *)
Theorem getEmptyCells_exact : forall b,
  (forall i, In i (getEmptyCells b) <-> lookup b i = Some Empty) /\
  StronglySorted lt (getEmptyCells b) /\ length (getEmptyCells b) = count_empty b.
Proof.
  intros b. split; [apply getEmptyCells_spec|].
  split; [apply empties_from_sorted|apply empties_from_length].
Qed.

(** X2: getWinner agrees with checkResult: it returns the mark of the win result, and nothing on a draw or a board still in progress. *)
Theorem getWinner_checkResult : forall b,
  getWinner b = match checkResult b with RWin w _ => Some w | _ => None end.
Proof.
  intros b. unfold getWinner, checkResult. rewrite first_some_pair.
  destruct (first_some _ WIN_PATTERNS) as [[w p]|]; [reflexivity|].
  cbn [option_map]. destruct (negb (includes_empty b)); reflexivity.
Qed.

(** X3: a mark returned by getWinner has a completed line, and getWinner returns nothing exactly when neither mark has a completed line. *)
Theorem getWinner_lines : forall b,
  (forall p, getWinner b = Some p -> has_line b p = true) /\
  (getWinner b = None <-> has_line b PX = false /\ has_line b PO = false).
Proof.
  intros b. split; [apply getWinner_has_line|]. split.
  - intros H. split; apply getWinner_None; exact H.
  - intros [HX HO]. destruct (getWinner b) as [[|]|] eqn:E; [| |reflexivity];
      apply getWinner_has_line in E; congruence.
Qed.

(** X4: for a line of WIN_PATTERNS, a cell returned by findWinningMove is empty, lies on the line, and placing the mark there completes the line for that mark. *)
Theorem findWinningMove_completes : forall b p m k, In p WIN_PATTERNS ->
  findWinningMove b p m = Some k ->
  lookup b k = Some Empty /\ In k p /\ line_complete (set_cell b k (cell_of m)) p m.
Proof.
  intros b p m k Hp H. destruct (patterns_shape p Hp) as [x [y [z ->]]].
  destruct (patterns_distinct x y z Hp) as [Dxy [Dxz Dyz]].
  apply findWinningMove_cases in H.
  destruct H as [[H1 [H2 [H3 ->]]]|[[H1 [H2 [H3 ->]]]|[H1 [H2 [H3 ->]]]]];
    (split; [assumption|]); (split; [simpl; tauto|]);
    exists x, y, z; (split; [reflexivity|]);
    repeat split;
    first [ rewrite lookup_set_same; [reflexivity|eapply lookup_some_lt; eassumption]
          | rewrite lookup_set_other; [assumption|lia] ].
Qed.

Lemma findWinningMove_completes_witness :
  let b := [CX; CX; Empty; CO; CO; Empty; Empty; Empty; Empty] in
  In [0;1;2]%nat WIN_PATTERNS /\ findWinningMove b [0;1;2]%nat PX = Some 2%nat /\
  (lookup b 2 = Some Empty /\ In 2%nat [0;1;2]%nat /\
   line_complete (set_cell b 2 (cell_of PX)) [0;1;2]%nat PX).
Proof.
  intros b. split; [left; reflexivity|]. split; [reflexivity|].
  apply findWinningMove_completes; [left; reflexivity|reflexivity].
Defined.

(** X5: at every difficulty, a move returned by chooseMove is an empty cell of the board. *)
Theorem chooseMove_picks_empty : forall rnd b d ai human i,
  fst (chooseMove rnd b d ai human) = Some i -> lookup b i = Some Empty.
Proof. exact chooseMove_empty. Qed.

(** X6: on a 9-cell board still in progress (no line, an empty cell left), chooseMove returns a move at every difficulty, given a random source that stays below its bound. *)
Theorem chooseMove_always_moves : forall rnd b d ai human, rnd_ok rnd -> length b = 9%nat ->
  checkResult b = RNone ->
  exists i, fst (chooseMove rnd b d ai human) = Some i /\ lookup b i = Some Empty.
Proof.
  intros rnd b d ai human Hr Hl Hc.
  assert (He : includes_empty b = true).
  { unfold checkResult in Hc. destruct (first_some _ WIN_PATTERNS) as [[w p]|]; [discriminate|].
    destruct (includes_empty b); [reflexivity|discriminate]. }
  destruct (chooseMove_some rnd b d ai human Hr Hl He) as [i Hi].
  exists i. split; [exact Hi|]. eapply chooseMove_empty; eauto.
Qed.

Lemma chooseMove_always_moves_witness :
  rnd_ok (fun _ => 0%nat) /\ length emptyBoard = 9%nat /\ checkResult emptyBoard = RNone /\
  exists i, fst (chooseMove (fun _ => 0%nat) emptyBoard Hard PO PX) = Some i /\
            lookup emptyBoard i = Some Empty.
Proof.
  split; [intros n Hn; exact Hn|]. split; [reflexivity|]. split; [vm_compute; reflexivity|].
  apply chooseMove_always_moves; [intros n Hn; exact Hn|reflexivity|vm_compute; reflexivity].
Defined.

Lemma chooseMove_picks_empty_witness :
  let b := [CX; CX; Empty; CO; CO; Empty; Empty; Empty; Empty] in
  fst (chooseMove (fun _ => 0%nat) b Medium PO PX) = Some 5%nat /\ lookup b 5 = Some Empty.
Proof.
  intros b. split; [vm_compute; reflexivity|].
  apply (chooseMove_picks_empty (fun _ => 0%nat) b Medium PO PX). vm_compute. reflexivity.
Defined.

(** X7: with any window alpha < beta, the score v that minimax returns is fail-soft with respect to the full-window score t: if v <= alpha then t <= v, if v >= beta then t >= v, and if alpha < v < beta then v = t. *)
Theorem minimax_window : forall b d m alpha beta ai human, nlt alpha beta ->
  fail_soft (fst (minimax b d m alpha beta ai human))
            (fst (minimax b d m NegInf PosInf ai human)) alpha beta.
Proof.
  intros b d m alpha beta ai human H. unfold minimax.
  pose proof (minimax_go_fail_soft 10 b d m alpha beta ai human H) as F.
  pose proof (minimax_go_fail_soft 10 b d m NegInf PosInf ai human eq_refl) as F0.
  apply fail_soft_full_window in F0. rewrite F0.
  rewrite (minimax_noprune_go_indep 10 b d m NegInf PosInf alpha beta ai human). exact F.
Qed.

Lemma minimax_window_witness :
  let b := [CX; CX; Empty; CO; CO; Empty; Empty; Empty; Empty] in
  nlt (Fin (-1)) (Fin 1) /\
  fail_soft (fst (minimax b 0 true (Fin (-1)) (Fin 1) PX PO))
            (fst (minimax b 0 true NegInf PosInf PX PO)) (Fin (-1)) (Fin 1).
Proof.
  intros b. split; [reflexivity|]. apply minimax_window. reflexivity.
Defined.



Ltac fields0 :=
  cbn [mode difficulty playerMark aiMark currentPlayer board gameActive scores aiThinking
       aiTimeoutSet inputLocked with_mode with_difficulty with_playerMark with_aiMark
       with_currentPlayer with_board with_gameActive with_scores with_aiThinking
       with_aiTimeoutSet with_inputLocked placeMark switchPlayer clearPendingTimers
       scheduleAITurn] in *.
Ltac fields := fields0; unfold is_pvai in *; fields0.

Lemma endGame_shape : forall r s,
  exists sc, endGame r s = with_scores sc (with_inputLocked true (with_gameActive false s)).
Proof.
  intros [w p| |] s; unfold endGame, updateWinStatus, endGameWithDraw;
    [destruct (is_pvai _), (player_eqb _ _)|..]; eexists; reflexivity.
Qed.

Lemma endGame_p1 : forall r s, is_pvai s = true ->
  (forall w p, r = RWin w p -> w <> playerMark s) ->
  Score.p1 (scores (endGame r s)) = Score.p1 (scores s).
Proof.
  intros [w p| |] s Hm Hw; unfold endGame, updateWinStatus, endGameWithDraw; fields; try reflexivity.
  unfold is_pvai in *. fields. destruct (mode s) as [[|]|]; try discriminate.
  destruct (player_eqb w (playerMark s)) eqn:E; [|reflexivity].
  apply player_eqb_spec in E. exfalso. exact (Hw w p eq_refl E).
Qed.

Lemma checkResult_none_empty : forall b, checkResult b = RNone -> includes_empty b = true.
Proof.
  intros b Hc. unfold checkResult in Hc. destruct (first_some _ WIN_PATTERNS) as [[w p]|]; [discriminate|].
  destruct (includes_empty b); [reflexivity|discriminate].
Qed.

Lemma handleCellAction_cases : forall i s,
  handleCellAction i s = s \/
  (gameActive s = true /\ lookup (board s) i = Some Empty /\ aiThinking s = false /\ inputLocked s = false /\
   (is_pvai s = true -> currentPlayer s = playerMark s) /\
   let b' := set_cell (board s) i (cell_of (currentPlayer s)) in
   (checkResult b' <> RNone /\
    handleCellAction i s = endGame (checkResult b') (with_board b' (with_inputLocked true s))) \/
   (checkResult b' = RNone /\
    handleCellAction i s =
      let s2 := with_inputLocked false (with_currentPlayer (opposite (currentPlayer s))
                  (with_board b' (with_inputLocked true s))) in
      if is_pvai s then scheduleAITurn s2 else s2)).
Proof.
  intros i s. unfold handleCellAction.
  destruct (gameActive s) eqn:Ga; cbn [negb orb]; [|left; reflexivity].
  destruct (ocell_eqb (lookup (board s) i) (Some Empty)) eqn:Ce; cbn [negb orb]; [|left; reflexivity].
  destruct (aiThinking s) eqn:At; cbn [orb]; [left; reflexivity|].
  destruct (inputLocked s) eqn:Il; [left; reflexivity|].
  destruct (is_pvai s && negb (player_eqb (currentPlayer s) (playerMark s))) eqn:Tu; [left; reflexivity|].
  right. apply ocell_eqb_empty in Ce. split; [reflexivity|]. split; [exact Ce|]. split; [reflexivity|]. split; [reflexivity|].
  split.
  { intros Hp. rewrite Hp in Tu. destruct (player_eqb (currentPlayer s) (playerMark s)) eqn:E;
      [apply player_eqb_spec; exact E|discriminate]. }
  unfold placeMark. fields.
  destruct (checkResult (set_cell (board s) i (cell_of (currentPlayer s)))) eqn:C.
  - left. split; [discriminate|reflexivity].
  - left. split; [discriminate|reflexivity].
  - right. split; [reflexivity|]. unfold switchPlayer. fields. rewrite Ga, andb_true_r. reflexivity.
Qed.

Lemma chooseMoveAt_board : forall rnd b d ai human, snd (chooseMoveAt rnd b d ai human) = b.
Proof.
  intros rnd b [[| |]|] ai human; [reflexivity|reflexivity|apply hardMove_restores|reflexivity].
Qed.

Lemma aiTimerFires_cases : forall rnd a s, gameActive s = true ->
  let b' := match fst (chooseMoveAt rnd (board s) (difficulty s) a (playerMark s)) with
            | Some m => set_cell (board s) m (cell_of (currentPlayer s))
            | None => board s end in
  let s3 := with_inputLocked false (with_aiThinking false (with_board b' (with_aiTimeoutSet false s))) in
  (checkResult b' <> RNone /\ aiTimerFires rnd a s = endGame (checkResult b') s3) \/
  (checkResult b' = RNone /\ aiTimerFires rnd a s = with_currentPlayer (opposite (currentPlayer s)) s3).
Proof.
  intros rnd a s Ga. unfold aiTimerFires. fields. rewrite Ga. cbn [negb].
  pose proof (chooseMoveAt_board rnd (board s) (difficulty s) a (playerMark s)) as Hb.
  destruct (chooseMoveAt rnd (board s) (difficulty s) a (playerMark s)) as [move b1].
  cbn [snd fst] in *. subst b1.
  destruct move as [m|]; unfold placeMark; fields;
    match goal with |- context [checkResult ?b] => destruct (checkResult b) eqn:C end;
    first [left; split; [discriminate|reflexivity] | right; split; reflexivity].
Qed.

Lemma chooseMoveAt_empty : forall rnd b d ai human i,
  fst (chooseMoveAt rnd b d ai human) = Some i -> lookup b i = Some Empty.
Proof.
  intros rnd b [d|] ai human i H;
    [exact (chooseMove_empty rnd b d ai human i H)|exact (easyMove_in rnd b i H)].
Qed.

Lemma chooseMoveAt_some : forall rnd b d ai human, rnd_ok rnd -> length b = 9%nat ->
  includes_empty b = true -> exists i, fst (chooseMoveAt rnd b d ai human) = Some i.
Proof.
  intros rnd b [d|] ai human Hr Hl He; [apply chooseMove_some; assumption|].
  destruct (easyMove_empty_cell rnd b Hr He) as [i [Hi _]]. exists i. exact Hi.
Qed.

Lemma ctl_base : forall rnd s, ctl_reach rnd s ->
  length (board s) = 9%nat /\
  (gameActive s = true -> checkResult (board s) = RNone) /\
  (aiTimeoutSet s = true -> gameActive s = true /\ aiThinking s = true /\ is_pvai s = true /\
     aiMark s = Some (currentPlayer s)) /\
  (is_pvai s = true -> aiMark s = Some (opposite (playerMark s))).
Proof.
  intros rnd s H. induction H as [s|s d side|s i H IH|s a H IH Ht Ha|s H IH|s H IH].
  - unfold startGame, startPvP. fields. cbn [andb].
    split; [reflexivity|]. split; [reflexivity|]. split; [discriminate|discriminate].
  - unfold startGame, setSide, setDifficulty, startPvAI. fields.
    destruct side; cbn [opposite player_eqb oplayer_eqb andb]; fields;
      (split; [reflexivity|]); (split; [reflexivity|]); split; auto; discriminate.
  - destruct IH as [IL [IC [IT IP]]].
    destruct (handleCellAction_cases i s) as [E|[Ga [Ce [At [Il [Tu [[C E]|[C E]]]]]]]]; rewrite E;
      [tauto| |].
    + destruct (endGame_shape (checkResult (set_cell (board s) i (cell_of (currentPlayer s))))
                 (with_board (set_cell (board s) i (cell_of (currentPlayer s))) (with_inputLocked true s)))
        as [sc ->].
      fields. rewrite set_cell_length. split; [exact IL|]. split; [discriminate|]. split; [|exact IP].
      intros Ht. destruct (IT Ht) as [_ [At' _]]. congruence.
    + cbv zeta. fields. destruct (mode s) as [[|]|] eqn:Md; fields; rewrite ?Md; cbv beta iota;
        rewrite ?set_cell_length; (split; [exact IL|]); (split; [intros _; exact C|]).
      * split; [|discriminate]. intros Ht. destruct (IT Ht) as [_ [At' _]]. congruence.
      * split; [|intros _; apply IP; reflexivity].
        intros _. split; [exact Ga|]. split; [reflexivity|]. split; [reflexivity|].
        rewrite (Tu eq_refl). apply IP. reflexivity.
      * split; [|discriminate]. intros Ht. destruct (IT Ht) as [_ [At' _]]. congruence.
  - destruct IH as [IL [IC [IT IP]]]. destruct (IT Ht) as [Ga [_ [Pv Ha']]].
    destruct (aiTimerFires_cases rnd a s Ga) as [[C E]|[C E]]; rewrite E.
    + match goal with |- context [endGame ?r ?s3] => destruct (endGame_shape r s3) as [sc ->] end.
      fields. split; [destruct (fst _); rewrite ?set_cell_length; exact IL|].
      split; [discriminate|]. split; [discriminate|exact IP].
    + fields. split; [destruct (fst _); rewrite ?set_cell_length; exact IL|].
      split; [intros _; exact C|]. split; [discriminate|exact IP].
  - destruct IH as [IL [IC [IT IP]]]. unfold clearPendingTimers. fields.
    split; [exact IL|]. split; [exact IC|]. split; [discriminate|exact IP].
  - destruct IH as [IL [IC [IT IP]]]. unfold startGame. fields.
    destruct (mode s) as [[|]|] eqn:Md; cbv beta iota; cbn [andb].
    + fields. rewrite Md. cbv beta iota.
      split; [reflexivity|]. split; [reflexivity|]. split; [discriminate|discriminate].
    + destruct (oplayer_eqb (aiMark s) PX) eqn:Ax; fields; rewrite ?Md; cbv beta iota;
        (split; [reflexivity|]); (split; [reflexivity|]); (split; [|intros _; apply IP; reflexivity]).
      * intros _. split; [reflexivity|]. split; [reflexivity|]. split; [reflexivity|].
        destruct (aiMark s) as [[|]|]; try discriminate; reflexivity.
      * discriminate.
    + fields. rewrite Md. cbv beta iota.
      split; [reflexivity|]. split; [reflexivity|]. split; [discriminate|discriminate].
Qed.

Lemma count_cell_place : forall b i m c, lookup b i = Some Empty -> c <> Empty ->
  count_cell c (set_cell b i m) = (count_cell c b + if cell_eqb c m then 1 else 0)%nat.
Proof.
  unfold count_cell. induction b as [|x b IH]; intros [|i] m c H Hc; cbn in H; try discriminate.
  - inversion H; subst. cbn [set_cell filter].
    destruct c; [congruence| |]; destruct m; cbn [cell_eqb length]; lia.
  - cbn [set_cell filter]. destruct (cell_eqb c x); cbn [length]; rewrite IH by assumption; lia.
Qed.

Lemma turn_ok_step : forall p b i, turn_ok p b -> lookup b i = Some Empty ->
  turn_ok (opposite p) (set_cell b i (cell_of p)).
Proof.
  intros p b i [[-> E]|[-> E]] Hi; unfold turn_ok; cbn [opposite player_eqb cell_of];
    [right|left]; (split; [reflexivity|]);
    rewrite !count_cell_place by (assumption || discriminate); cbn [cell_eqb]; lia.
Qed.

Lemma startGame_fields : forall s,
  board (startGame s) = emptyBoard /\ gameActive (startGame s) = true /\
  currentPlayer (startGame s) = PX /\ mode (startGame s) = mode s /\
  difficulty (startGame s) = difficulty s /\ playerMark (startGame s) = playerMark s /\
  aiMark (startGame s) = aiMark s /\ scores (startGame s) = scores s.
Proof. intros s. unfold startGame. destruct (_ && _); repeat split. Qed.

Lemma ctl_turns : forall rnd, rnd_ok rnd -> forall s, ctl_reach rnd s ->
  turn_ok (if gameActive s then currentPlayer s else opposite (currentPlayer s)) (board s).
Proof.
  intros rnd Hr s H.
  assert (Hst : forall s0, turn_ok (if gameActive (startGame s0) then currentPlayer (startGame s0)
                 else opposite (currentPlayer (startGame s0))) (board (startGame s0))).
  { intros s0. destruct (startGame_fields s0) as [-> [-> [-> _]]]. left. split; reflexivity. }
  induction H as [s|s d side|s i H IH|s a H IH Ht Ha|s H IH|s H IH]; try apply Hst.
  - destruct (handleCellAction_cases i s) as [E|[Ga [Ce [At [Il [Tu [[C E]|[C E]]]]]]]]; rewrite E;
      [exact IH| |]; rewrite Ga in IH.
    + match goal with |- context [endGame ?r ?s3] => destruct (endGame_shape r s3) as [sc ->] end.
      fields. rewrite ?Ga. apply turn_ok_step; assumption.
    + cbv zeta. destruct (is_pvai s); fields; rewrite ?Ga; apply turn_ok_step; assumption.
  - destruct (ctl_base rnd s H) as [IL [IC [IT IP]]]. destruct (IT Ht) as [Ga [_ [_ Ha']]].
    rewrite Ga in IH. specialize (IC Ga).
    destruct (chooseMoveAt_some rnd (board s) (difficulty s) a (playerMark s) Hr IL
                (checkResult_none_empty _ IC)) as [i Hi].
    pose proof (chooseMoveAt_empty _ _ _ _ _ _ Hi) as Ce.
    destruct (aiTimerFires_cases rnd a s Ga) as [[C E]|[C E]]; rewrite E; rewrite Hi in *.
    + match goal with |- context [endGame ?r ?s3] => destruct (endGame_shape r s3) as [sc ->] end.
      fields. rewrite ?Ga. apply turn_ok_step; assumption.
    + fields. rewrite ?Ga. apply turn_ok_step; assumption.
  - unfold clearPendingTimers. fields. exact IH.
Qed.

Lemma opposite_neq : forall p, opposite p <> p.
Proof. intros [|]; discriminate. Qed.

Lemma player_eqb_opposite : forall p, player_eqb p (opposite p) = false.
Proof. intros [|]; reflexivity. Qed.

Lemma opposite_involutive : forall p, opposite (opposite p) = p.
Proof. intros [|]; reflexivity. Qed.

Lemma reachable_no_human_line : forall rnd ai human b t, ai <> human ->
  reachable rnd ai human b t -> has_line b human = false.
Proof.
  intros rnd ai human b t Hne H.
  destruct (safe_go_reachable rnd ai human Hne b t H) as [n Hs].
  exact (safe_go_no_human_line _ _ _ _ _ Hs).
Qed.

(** A round's end keeps the player's counter when the result is not a win
    of the player's mark. *)
Lemma endGame_p1_hard : forall rnd s b t, is_pvai s = true ->
  reachable rnd (opposite (playerMark s)) (playerMark s) b t ->
  Score.p1 (scores (endGame (checkResult b) s)) = Score.p1 (scores s).
Proof.
  intros rnd s b t Pv Hr. apply endGame_p1; [exact Pv|].
  intros w p Hw ->. apply checkResult_win_line in Hw.
  rewrite (reachable_no_human_line _ _ _ _ _ (opposite_neq _) Hr) in Hw. discriminate.
Qed.

Lemma ctl_hard : forall rnd s, ctl_reach rnd s -> is_pvai s = true -> difficulty s = Some Hard ->
  Score.p1 (scores s) = 0%nat /\
  (gameActive s = true ->
     reachable rnd (opposite (playerMark s)) (playerMark s) (board s)
       (player_eqb (currentPlayer s) (opposite (playerMark s)))) /\
  (exists t, reachable rnd (opposite (playerMark s)) (playerMark s) (board s) t).
Proof.
  intros rnd s H. induction H as [s|s d side|s i H IH|s a H IH Ht Ha|s H IH|s H IH]; intros Pv Dh.
  - unfold is_pvai in Pv. rewrite (proj1 (proj2 (proj2 (proj2 (startGame_fields _))))) in Pv.
    discriminate.
  - destruct (startGame_fields (setSide side (setDifficulty d (startPvAI s))))
      as [Eb [_ [_ [_ [_ [_ [_ Es]]]]]]].
    rewrite Eb, Es. split; [reflexivity|]. split; [intros _; apply reach_start|].
    exists true. apply reach_start.
  - destruct (ctl_base rnd s H) as [IL [IC [IT IP]]].
    destruct (handleCellAction_cases i s) as [E|[Ga [Ce [At [Il [Tu [[C E]|[C E]]]]]]]];
      rewrite E in *; [exact (IH Pv Dh)| |].
    + destruct (endGame_shape (checkResult (set_cell (board s) i (cell_of (currentPlayer s))))
                 (with_board (set_cell (board s) i (cell_of (currentPlayer s))) (with_inputLocked true s)))
        as [sc Esc].
      assert (Pv' : is_pvai s = true) by (rewrite Esc in Pv; fields; exact Pv).
      assert (Dh' : difficulty s = Some Hard) by (rewrite Esc in Dh; fields; exact Dh).
      destruct (IH Pv' Dh') as [P1 [R _]]. specialize (R Ga).
      pose proof (Tu Pv') as Tu'. rewrite Tu' in *. rewrite player_eqb_opposite in R.
      pose proof (reach_human _ _ _ _ i R (IC Ga) Ce) as R'.
      split.
      * rewrite (endGame_p1_hard rnd _ _ true); fields; [exact P1|exact Pv'|exact R'].
      * rewrite Esc. fields. split; [discriminate|]. exists true. exact R'.
    + cbv zeta in *. destruct (is_pvai s) eqn:Pv'; [|fields; rewrite Pv' in Pv; discriminate].
      fields. assert (Dh' : difficulty s = Some Hard) by exact Dh.
      destruct (IH eq_refl Dh') as [P1 [R _]]. specialize (R Ga).
      pose proof (Tu eq_refl) as Tu'. rewrite Tu' in *. rewrite player_eqb_opposite in R.
      pose proof (reach_human _ _ _ _ i R (IC Ga) Ce) as R'.
      split; [exact P1|]. split.
      * intros _. replace (player_eqb (opposite (playerMark s)) (opposite (playerMark s))) with true
          by (destruct (playerMark s); reflexivity).
        exact R'.
      * exists true. exact R'.
  - destruct (ctl_base rnd s H) as [IL [IC [IT IP]]]. destruct (IT Ht) as [Ga [_ [Pv0 Ha']]].
    rewrite Ha' in Ha. injection Ha as Ha. subst a.
    assert (Hcp : currentPlayer s = opposite (playerMark s)).
    { rewrite (IP Pv0) in Ha'. injection Ha' as Ha'. symmetry. exact Ha'. }
    assert (Pv' : is_pvai s = true) by exact Pv0.
    assert (Dh' : difficulty s = Some Hard).
    { destruct (aiTimerFires_cases rnd (currentPlayer s) s Ga) as [[C E]|[C E]]; rewrite E in Dh.
      - match type of Dh with context [endGame ?r ?s3] =>
          destruct (endGame_shape r s3) as [sc Esc] end.
        rewrite Esc in Dh. fields. exact Dh.
      - fields. exact Dh. }
    destruct (IH Pv' Dh') as [P1 [R _]]. specialize (R Ga).
    rewrite Hcp in R. replace (player_eqb (opposite (playerMark s)) (opposite (playerMark s))) with true
      in R by (destruct (playerMark s); reflexivity).
    pose proof (IC Ga) as ICg.
    destruct (hardMove_some (board s) (opposite (playerMark s)) (playerMark s) IL
                (checkResult_none_empty _ ICg)) as [i Hi0].
    pose proof (hardMove_restores (board s) (opposite (playerMark s)) (playerMark s)) as Hb0.
    assert (Hm : chooseMove rnd (board s) Hard (opposite (playerMark s)) (playerMark s) = (Some i, board s)).
    { cbn [chooseMove]. destruct (hardMove (board s) (opposite (playerMark s)) (playerMark s)).
      cbn [fst snd] in *. subst. reflexivity. }
    pose proof (reach_ai _ _ _ _ i (board s) R ICg Hm) as R'.
    assert (Hi : fst (chooseMoveAt rnd (board s) (difficulty s) (currentPlayer s) (playerMark s)) = Some i).
    { rewrite Dh', Hcp. cbn [chooseMoveAt]. rewrite Hm. reflexivity. }
    destruct (aiTimerFires_cases rnd (currentPlayer s) s Ga) as [[C E]|[C E]]; rewrite E; rewrite Hi in *;
      rewrite Hcp in *.
    + split.
      * rewrite (endGame_p1_hard rnd _ _ false); fields; [exact P1|exact Pv'|exact R'].
      * match goal with |- context [endGame ?r ?s3] => destruct (endGame_shape r s3) as [sc ->] end.
        fields. split; [discriminate|]. exists false. exact R'.
    + fields. rewrite Ga, opposite_involutive, player_eqb_opposite.
      split; [exact P1|]. split; [intros _; exact R'|]. exists false. exact R'.
  - unfold clearPendingTimers in *. fields. exact (IH Pv Dh).
  - destruct (startGame_fields s) as [Eb [Ea [Ec [Em [Ed [Ep [Eai Es]]]]]]].
    assert (Pv' : is_pvai s = true) by (unfold is_pvai in *; rewrite Em in Pv; exact Pv).
    rewrite Ed in Dh. destruct (IH Pv' Dh) as [P1 _].
    rewrite Eb, Es, Ep. split; [exact P1|]. split; [intros _; apply reach_start|].
    exists true. apply reach_start.
Qed.

(** X9: in every state reached by the controller the board has 9 cells, X has as many marks as O or one more, and during a round X is to move exactly when the counts are equal. *)
Theorem ctl_turn_order : forall rnd s, rnd_ok rnd -> ctl_reach rnd s ->
  length (board s) = 9%nat /\
  (count_cell CX (board s) = count_cell CO (board s) \/
   count_cell CX (board s) = S (count_cell CO (board s))) /\
  (gameActive s = true ->
     (currentPlayer s = PX <-> count_cell CX (board s) = count_cell CO (board s))).
Proof.
  intros rnd s Hr H. pose proof (ctl_turns rnd Hr s H) as T.
  split; [exact (proj1 (ctl_base rnd s H))|].
  destruct (gameActive s) eqn:Ga.
  - destruct T as [[-> E]|[-> E]]; (split; [tauto|]); intros _; split; intros; auto; try discriminate; lia.
  - split; [destruct T as [[_ E]|[_ E]]; tauto|discriminate].
Qed.

Lemma ctl_turn_order_witness :
  let s := handleCellAction 4 (startGame (setSide PX (setDifficulty Hard (startPvAI initialState)))) in
  length (board s) = 9%nat /\
  (count_cell CX (board s) = count_cell CO (board s) \/
   count_cell CX (board s) = S (count_cell CO (board s))) /\
  (gameActive s = true ->
     (currentPlayer s = PX <-> count_cell CX (board s) = count_cell CO (board s))).
Proof.
  intros s. apply (ctl_turn_order (fun _ => 0%nat)); [intros n Hn; exact Hn|].
  apply ctl_cell, ctl_start_pvai.
Defined.

(** X10: when the AI timer fires in a reachable state, it is the AI's turn, the AI mark differs from the human's, and the AI places its mark on exactly one empty cell. *)
Theorem ai_turn_places_ai_mark : forall rnd s a, rnd_ok rnd -> ctl_reach rnd s ->
  aiTimeoutSet s = true -> aiMark s = Some a ->
  currentPlayer s = a /\ a <> playerMark s /\
  exists i, lookup (board s) i = Some Empty /\
    board (aiTimerFires rnd a s) = set_cell (board s) i (cell_of a).
Proof.
  intros rnd s a Hr H Ht Ha.
  destruct (ctl_base rnd s H) as [IL [IC [IT IP]]]. destruct (IT Ht) as [Ga [_ [Pv Ha']]].
  rewrite Ha' in Ha. injection Ha as Ha. subst a.
  split; [reflexivity|]. split.
  { rewrite (IP Pv) in Ha'. injection Ha' as Ha'. rewrite <- Ha'. apply opposite_neq. }
  destruct (chooseMoveAt_some rnd (board s) (difficulty s) (currentPlayer s) (playerMark s) Hr IL
              (checkResult_none_empty _ (IC Ga))) as [i Hi].
  exists i. split; [exact (chooseMoveAt_empty _ _ _ _ _ _ Hi)|].
  destruct (aiTimerFires_cases rnd (currentPlayer s) s Ga) as [[C E]|[C E]]; rewrite E; rewrite Hi.
  - match goal with |- context [endGame ?r ?s3] => destruct (endGame_shape r s3) as [sc ->] end.
    fields. reflexivity.
  - fields. reflexivity.
Qed.

Lemma ai_turn_places_ai_mark_witness :
  let s := startGame (setSide PO (setDifficulty Medium (startPvAI initialState))) in
  aiTimeoutSet s = true /\ aiMark s = Some PX /\
  (currentPlayer s = PX /\ PX <> playerMark s /\
   exists i, lookup (board s) i = Some Empty /\
     board (aiTimerFires (fun _ => 0%nat) PX s) = set_cell (board s) i (cell_of PX)).
Proof.
  intros s. split; [reflexivity|]. split; [reflexivity|].
  apply ai_turn_places_ai_mark; [intros n Hn; exact Hn|apply ctl_start_pvai|reflexivity|reflexivity].
Defined.

(** X11: once the board holds a win or a draw, the round is inactive, no AI move is pending, and every click is ignored. *)
Theorem ctl_finished_round : forall rnd s, ctl_reach rnd s -> checkResult (board s) <> RNone ->
  gameActive s = false /\ aiTimeoutSet s = false /\ forall i, handleCellAction i s = s.
Proof.
  intros rnd s H Hc. destruct (ctl_base rnd s H) as [_ [IC [IT _]]].
  assert (Ga : gameActive s = false).
  { destruct (gameActive s); [exfalso; exact (Hc (IC eq_refl))|reflexivity]. }
  split; [exact Ga|]. split.
  - destruct (aiTimeoutSet s) eqn:Ht; [|reflexivity]. destruct (IT eq_refl) as [G _]. congruence.
  - intros i. destruct (handleCellAction_cases i s) as [E|[Ga' _]]; [exact E|congruence].
Qed.

Lemma ctl_finished_round_witness :
  let s := handleCellAction 2 (handleCellAction 4 (handleCellAction 1 (handleCellAction 3
             (handleCellAction 0 (startGame (startPvP initialState)))))) in
  checkResult (board s) = RWin PX [0;1;2]%nat /\
  (gameActive s = false /\ aiTimeoutSet s = false /\ forall i, handleCellAction i s = s).
Proof.
  intros s. split; [vm_compute; reflexivity|].
  apply (ctl_finished_round (fun _ => 0%nat)).
  - repeat apply ctl_cell. apply ctl_start_pvp.
  - vm_compute. discriminate.
Defined.

(** X12: in a game against the hard AI the human mark never completes a line and the human's score stays 0, whatever the human clicks and whichever side the human plays. *)
Theorem hard_round_player_never_wins : forall rnd s, ctl_reach rnd s ->
  is_pvai s = true -> difficulty s = Some Hard ->
  has_line (board s) (playerMark s) = false /\ Score.p1 (scores s) = 0%nat.
Proof.
  intros rnd s H Pv Dh. destruct (ctl_hard rnd s H Pv Dh) as [P1 [_ [t R]]].
  split; [|exact P1]. exact (reachable_no_human_line _ _ _ _ _ (opposite_neq _) R).
Qed.

Lemma hard_round_player_never_wins_witness :
  let s := handleCellAction 0 (startGame (setSide PX (setDifficulty Hard (startPvAI initialState)))) in
  is_pvai s = true /\ difficulty s = Some Hard /\
  (has_line (board s) (playerMark s) = false /\ Score.p1 (scores s) = 0%nat).
Proof.
  intros s. split; [reflexivity|]. split; [reflexivity|].
  apply (hard_round_player_never_wins (fun _ => 0%nat)); [|reflexivity|reflexivity].
  apply ctl_cell, ctl_start_pvai.
Defined.

Lemma num_neg_max : forall x y, num_neg (num_max x y) = num_min (num_neg x) (num_neg y).
Proof.
  intros [|a|] [|b|]; unfold num_max, num_min; simpl; try reflexivity.
  destruct (Z.leb_spec a b), (Z.leb_spec (-a) (-b)). all: simpl; f_equal; lia.
Qed.

Lemma num_neg_involutive : forall x, num_neg (num_neg x) = x.
Proof. intros [|z|]; simpl; try rewrite Z.opp_involutive; reflexivity. Qed.

Lemma maxNoPrune_neg : forall (c1 c2 : Board -> num -> num -> num * Board) mark,
  (forall b a bt, snd (c1 b a bt) = b) -> (forall b a bt, snd (c2 b a bt) = b) ->
  (forall b a bt a' bt', fst (c1 b a bt) = num_neg (fst (c2 b a' bt'))) ->
  forall beta alpha' idxs b best alpha beta',
  fst (maxLoopNoPrune c1 mark beta idxs b best alpha) =
  num_neg (fst (minLoopNoPrune c2 mark alpha' idxs b (num_neg best) beta')).
Proof.
  intros c1 c2 mark R1 R2 H beta alpha' idxs.
  induction idxs as [|i idxs IH]; intros b best alpha beta'; cbn [maxLoopNoPrune minLoopNoPrune].
  - destruct best; simpl; rewrite ?Z.opp_involutive; reflexivity.
  - destruct (ocell_eqb (lookup b i) (Some Empty)) eqn:Hi; [|apply IH].
    apply ocell_eqb_empty in Hi.
    pose proof (R1 (set_cell b i mark) alpha beta) as E1.
    pose proof (R2 (set_cell b i mark) alpha' beta') as E2.
    pose proof (H (set_cell b i mark) alpha beta alpha' beta') as Hs.
    destruct (c1 (set_cell b i mark) alpha beta) as [s1 b1].
    destruct (c2 (set_cell b i mark) alpha' beta') as [s2 b2].
    simpl in E1, E2, Hs. subst b1 b2 s1. rewrite place_undo by exact Hi.
    rewrite (IH b _ _ (num_min beta' s2)). rewrite num_neg_max, num_neg_involutive. reflexivity.
Qed.


Lemma minimax_noprune_go_swap : forall fuel b d m alpha beta alpha' beta' ai human, ai <> human ->
  fst (minimax_noprune_go fuel b d m alpha beta ai human) =
  num_neg (fst (minimax_noprune_go fuel b d (negb m) alpha' beta' human ai)).
Proof.
  induction fuel as [|fuel IH]; intros b d m alpha beta alpha' beta' ai human Hd;
    rewrite !minimax_noprune_go_unfold;
    destruct (oplayer_eqb (getWinner b) ai) eqn:Ea, (oplayer_eqb (getWinner b) human) eqn:Eh;
    try (exfalso; destruct (getWinner b) as [[|]|], ai, human; simpl in *; congruence);
    try (cbn [fst num_neg]; f_equal; lia);
    destruct (negb (includes_empty b)); try (cbn [fst num_neg]; f_equal; lia).
  destruct m; cbn [negb].
  - apply maxNoPrune_neg.
    + intros; apply minimax_noprune_go_restores.
    + intros; apply minimax_noprune_go_restores.
    + intros; apply (IH _ _ false); exact Hd.
  - rewrite <- (num_neg_involutive (fst (minLoopNoPrune _ _ _ _ _ _ _))).
    f_equal. symmetry. apply maxNoPrune_neg.
    + intros; apply minimax_noprune_go_restores.
    + intros; apply minimax_noprune_go_restores.
    + intros; apply (IH _ _ false). intros E; apply Hd; symmetry; exact E.
Qed.

(** X13: minimax is zero-sum: for distinct marks and the full window, swapping the AI and human marks together with the maximizing flag negates the score. *)
Theorem minimax_zero_sum : forall b d m ai human, ai <> human ->
  fst (minimax b d m NegInf PosInf ai human) =
  num_neg (fst (minimax b d (negb m) NegInf PosInf human ai)).
Proof.
  intros b d m ai human Hd. unfold minimax.
  pose proof (minimax_go_fail_soft 10 b d m NegInf PosInf ai human eq_refl) as F1.
  pose proof (minimax_go_fail_soft 10 b d (negb m) NegInf PosInf human ai eq_refl) as F2.
  apply fail_soft_full_window in F1, F2. rewrite F1, F2.
  apply minimax_noprune_go_swap. exact Hd.
Qed.

Lemma minimax_zero_sum_witness :
  let b := [CX; CX; Empty; CO; CO; Empty; Empty; Empty; Empty] in
  PX <> PO /\
  fst (minimax b 0 true NegInf PosInf PX PO) =
  num_neg (fst (minimax b 0 (negb true) NegInf PosInf PO PX)).
Proof.
  intros b. split; [discriminate|]. apply minimax_zero_sum. discriminate.
Defined.
